(** * BetterDataFormats: the scoped timer of [utils.py]

    The repository consists of one generator function wrapped by
    [contextlib.contextmanager]:

<<
    @contextmanager
    def timed(msg='', width=40):
        start = perf_counter()
        yield lambda: stop - start
        stop = perf_counter()
        print(f"{msg:<{width}}{stop - start:.3f}s")
>>

    The development embeds that function together with the parts of the
    Python runtime that give it a meaning: exception objects, the format
    mini-language used by the f-string, binary64 arithmetic and its fixed
    point rendering, the generator protocol, [contextmanager] and the [with]
    statement.  Definitions come first; the lemmas on the format
    mini-language, on binary64 arithmetic and on the runs of the timer
    follow, and the properties of the timer close the file. *)

From Stdlib Require Import ZArith NArith PArith List String Ascii Bool Lia.
From Stdlib Require Import Decimal DecimalString DecimalN DecimalPos DecimalFacts.
From Stdlib Require Import Zpower.
From Stdlib Require Import SpecFloat.
Import ListNotations.

Local Open Scope string_scope.
Local Open Scope Z_scope.

(* ================================================================== *)
(** * Python objects shared by every part of the model *)

Module Py.

(** Exception classes.  The built-in ones the timer can meet are listed
    with their place in the hierarchy; [UserClass] stands for any class
    defined by the program under the given base. *)
Inductive exn_class : Type :=
| BaseException
| Exception
| GeneratorExit
| KeyboardInterrupt
| StopIteration
| RuntimeError
| NameError
| ValueError
| MemoryError
| UserClass (name : string) (base : exn_class).

Fixpoint class_eqb (c d : exn_class) : bool :=
  match c, d with
  | BaseException, BaseException => true
  | Exception, Exception => true
  | GeneratorExit, GeneratorExit => true
  | KeyboardInterrupt, KeyboardInterrupt => true
  | StopIteration, StopIteration => true
  | RuntimeError, RuntimeError => true
  | NameError, NameError => true
  | ValueError, ValueError => true
  | MemoryError, MemoryError => true
  | UserClass n b, UserClass n' b' => String.eqb n n' && class_eqb b b'
  | _, _ => false
  end.

(** Method resolution order (single inheritance): the class followed by
    its ancestors. *)
Fixpoint mro (c : exn_class) : list exn_class :=
  match c with
  | BaseException => [BaseException]
  | Exception => [Exception; BaseException]
  | GeneratorExit => [GeneratorExit; BaseException]
  | KeyboardInterrupt => [KeyboardInterrupt; BaseException]
  | StopIteration => [StopIteration; Exception; BaseException]
  | RuntimeError => [RuntimeError; Exception; BaseException]
  | NameError => [NameError; Exception; BaseException]
  | ValueError => [ValueError; Exception; BaseException]
  | MemoryError => [MemoryError; Exception; BaseException]
  | UserClass _ base => c :: mro base
  end.

Definition issubclass (c target : exn_class) : bool :=
  existsb (class_eqb target) (mro c).

(** An exception object: an identity tag chosen by whoever creates the
    object, its class, its message and its [__cause__]. *)
#[warnings="-register-all"]
Inductive exn : Type :=
| Exc (ident : nat) (cls : exn_class) (message : string) (cause : option exn).

Definition exn_cls (e : exn) : exn_class := let 'Exc _ c _ _ := e in c.
Definition exn_cause (e : exn) : option exn := let 'Exc _ _ _ c := e in c.

Definition isinstance (e : exn) (c : exn_class) : bool :=
  issubclass (exn_cls e) c.

(** [a is b] on exception objects.  Objects are values here, so two
    objects are the same one when they agree on every component. *)
Fixpoint exn_is (a b : exn) : bool :=
  match a, b with
  | Exc i c m k, Exc i' c' m' k' =>
      Nat.eqb i i' && class_eqb c c' && String.eqb m m' &&
      match k, k' with
      | None, None => true
      | Some x, Some y => exn_is x y
      | _, _ => false
      end
  end.

(** Outcome of evaluating a piece of Python: a value or a raised
    exception. *)
Inductive result (A : Type) : Type :=
| Return (a : A)
| Raise (e : exn).
Arguments Return {A} a.
Arguments Raise {A} e.

Definition bind {A B} (r : result A) (k : A -> result B) : result B :=
  match r with
  | Return a => k a
  | Raise e => Raise e
  end.

Declare Scope py_scope.
Delimit Scope py_scope with py.
Notation "x <- c ;; k" := (bind c (fun x => k))
  (at level 61, c at next level, right associativity) : py_scope.
Notation "' p <- c ;; k" := (bind c (fun p => k))
  (at level 61, p pattern, c at next level, right associativity) : py_scope.

(** [str(n)] for an [int].  The interpreter's configurable limit on the
    number of digits is not modelled; a number beyond it is far too large
    to be a field width and ends in a [ValueError] either way. *)
Definition str_of_int (n : Z) : string := NilZero.string_of_int (Z.to_int n).

(** [len(s)]. *)
Definition len (s : string) : Z := Z.of_nat (String.length s).

(** [c * n] for a one-character string [c]. *)
Definition repeat_char (c : ascii) (n : nat) : string :=
  string_of_list_ascii (List.repeat c n).

End Py.
Import Py.

(* ================================================================== *)
(** * The format mini-language for [str] values

    [f"{msg:<{width}}"] evaluates [format(msg, "<" + format(width, ""))].
    The functions below follow CPython's [parse_internal_render_format_spec],
    [get_integer], [calc_padding] and [format_string_internal]. *)

Module FormatSpec.

(** Largest [Py_ssize_t] of a 64-bit build. *)
Definition PY_SSIZE_T_MAX : Z := 2 ^ 63 - 1.

Inductive locale_type : Type :=
| LT_NO_LOCALE
| LT_DEFAULT_LOCALE
| LT_UNDERSCORE_LOCALE.

(** [InternalFormatSpec]; an unspecified width or precision, -1 in C, is
    [None]. *)
Record InternalFormatSpec : Type := {
  fill_char : ascii;
  align : ascii;
  alternate : bool;
  no_neg_0 : bool;
  sign : option ascii;
  width : option Z;
  thousands_separators : locale_type;
  precision : option Z;
  type : ascii
}.

Definition is_alignment_token (c : ascii) : bool :=
  (Ascii.eqb c "<" || Ascii.eqb c ">" || Ascii.eqb c "=" || Ascii.eqb c "^")%char.

Definition is_sign_element (c : ascii) : bool :=
  (Ascii.eqb c " " || Ascii.eqb c "+" || Ascii.eqb c "-")%char.

(** Value of a decimal digit, [None] for any other character. *)
Definition digit_value (c : ascii) : option Z :=
  let n := Z.of_N (N_of_ascii c) in
  if (48 <=? n) && (n <=? 57) then Some (n - 48) else None.

Definition value_error (m : string) : exn := Exc 0 ValueError m None.

(** [get_integer]: reads decimal digits from the front of [s].  Returns
    the number read, how many digits were consumed and the rest of the
    string; an accumulator about to exceed [PY_SSIZE_T_MAX] is an error. *)
Fixpoint get_integer (s : string) (accumulator : Z) (numdigits : nat)
  : result (Z * nat * string) :=
  match s with
  | String c rest =>
      match digit_value c with
      | Some digitval =>
          if accumulator >? (PY_SSIZE_T_MAX - digitval) / 10
          then Raise (value_error "Too many decimal digits in format string")
          else get_integer rest (accumulator * 10 + digitval) (S numdigits)
      | None => Return (accumulator, numdigits, s)
      end
  | EmptyString => Return (accumulator, numdigits, s)
  end.

(** Consumes the first character of [s] when it satisfies [p]. *)
Definition take_if (p : ascii -> bool) (s : string) : option ascii * string :=
  match s with
  | String c rest => if p c then (Some c, rest) else (None, s)
  | EmptyString => (None, s)
  end.

Definition is_some {A} (o : option A) : bool :=
  match o with Some _ => true | None => false end.

(** Fill character and alignment at the front of the specifier: the
    fill character, whether one was given, the alignment, whether one was
    given, and the rest of the specifier. *)
Definition parse_fill_align (format_spec : string) (default_align : ascii)
  : ascii * bool * ascii * bool * string :=
  match format_spec with
  | String c0 (String c1 rest) =>
      if is_alignment_token c1 then (c0, true, c1, true, rest)
      else if is_alignment_token c0 then (" "%char, false, c0, true, String c1 rest)
      else (" "%char, false, default_align, false, format_spec)
  | String c0 EmptyString =>
      if is_alignment_token c0 then (" "%char, false, c0, true, EmptyString)
      else (" "%char, false, default_align, false, format_spec)
  | EmptyString => (" "%char, false, default_align, false, format_spec)
  end.

(** The type character: at most one character may remain. *)
Definition parse_type (s : string) (default_type : ascii) : result ascii :=
  match s with
  | EmptyString => Return default_type
  | String c EmptyString => Return c
  | String _ (String _ _) => Raise (value_error "Invalid format specifier")
  end.

(** Thousands separators are accepted for some types only. *)
Definition check_separators (seps : locale_type) (typ : ascii) : result unit :=
  let one_of (cs : string) := existsb (Ascii.eqb typ) (list_ascii_of_string cs) in
  match seps with
  | LT_NO_LOCALE => Return tt
  | LT_DEFAULT_LOCALE =>
      if one_of "defgEG%F" || Ascii.eqb typ Ascii.zero then Return tt
      else Raise (value_error "Cannot specify ',' with this type.")
  | LT_UNDERSCORE_LOCALE =>
      if one_of "defgEG%FboxX" || Ascii.eqb typ Ascii.zero then Return tt
      else Raise (value_error "Cannot specify '_' with this type.")
  end.

(** Precision: a dot must be followed by digits. *)
Definition parse_precision (s : string) : result (option Z * string) :=
  let '(dot, s1) := take_if (Ascii.eqb "."%char) s in
  if is_some dot
  then ('(p, consumed, s2) <- get_integer s1 0 0 ;;
        match consumed with
        | O => Raise (value_error "Format specifier missing precision")
        | S _ => Return (Some p, s2)
        end)%py
  else Return (None, s1).

(** Thousands separators: a comma, an underscore, never both. *)
Definition parse_separators (s : string) : result (locale_type * string) :=
  let '(comma, s1) := take_if (Ascii.eqb ","%char) s in
  let '(underscore, s2) := take_if (Ascii.eqb "_"%char) s1 in
  if is_some underscore &&
     (is_some comma || is_some (fst (take_if (Ascii.eqb ","%char) s2)))
  then Raise (value_error "Cannot specify both ',' and '_'.")
  else Return (if is_some underscore then LT_UNDERSCORE_LOCALE
               else if is_some comma then LT_DEFAULT_LOCALE else LT_NO_LOCALE,
               s2).

(** Width, separators, precision and type, once fill, alignment and
    flags are known. *)
Definition parse_from_width (fill algn : ascii) (alt z : bool)
    (sgn : option ascii) (s : string) (default_type : ascii)
  : result InternalFormatSpec :=
  ('(w, consumed, s1) <- get_integer s 0 0 ;;
   '(seps, s2) <- parse_separators s1 ;;
   '(prcsn, s3) <- parse_precision s2 ;;
   typ <- parse_type s3 default_type ;;
   _ <- check_separators seps typ ;;
   Return {| fill_char := fill; align := algn; alternate := alt;
             no_neg_0 := z; sign := sgn;
             width := match consumed with O => None | S _ => Some w end;
             thousands_separators := seps; precision := prcsn;
             type := typ |})%py.

Definition parse_internal_render_format_spec
    (format_spec : string) (default_type default_align : ascii)
  : result InternalFormatSpec :=
  let '(fill, fill_char_specified, algn, align_specified, s1) :=
    parse_fill_align format_spec default_align in
  (* sign, z, # *)
  let '(sgn, s2) := take_if is_sign_element s1 in
  let '(z, s3) := take_if (Ascii.eqb "z"%char) s2 in
  let '(alt, s4) := take_if (Ascii.eqb "#"%char) s3 in
  (* the 0-padding special case *)
  let '(zeropad, s5) :=
    if fill_char_specified then (None, s4) else take_if (Ascii.eqb "0"%char) s4 in
  let fill := if is_some zeropad then "0"%char else fill in
  let algn :=
    if is_some zeropad && negb align_specified && Ascii.eqb default_align ">"%char
    then "="%char else algn in
  parse_from_width fill algn (is_some alt) (is_some z) sgn s5 default_type.

(** [calc_padding]: total field length and the padding on each side. *)
Definition calc_padding (nchars : Z) (wdth : option Z) (algn : ascii)
  : Z * Z * Z :=
  let n_total :=
    match wdth with
    | Some w => if nchars >? w then nchars else w
    | None => nchars
    end in
  let n_lpadding :=
    if Ascii.eqb algn ">"%char then n_total - nchars
    else if Ascii.eqb algn "^"%char then (n_total - nchars) / 2
    else 0 in
  (n_lpadding, n_total - nchars - n_lpadding, n_total).

(** Most characters a [str] can hold: [PyUnicode_New] answers a request
    for more with [MemoryError] before it asks the allocator.  The value
    is that of a 64-bit build of CPython 3.11 for one-byte characters: an
    object header of 48 bytes and one terminator. *)
Definition MAX_STR_LEN : Z := PY_SSIZE_T_MAX - 48 - 1.

Definition memory_error : exn := Exc 0 MemoryError "" None.

(** [format_string_internal]: renders the [str] [value] under a parsed
    specifier.  A value that needs neither padding nor truncation is
    handed back as it is.  Otherwise the field is a new string of
    [total] characters, and asking for it can fail with [MemoryError].
    Of that failure the model has the part the interpreter decides on its
    own, the bound [MAX_STR_LEN]; the memory left on the machine is not
    part of the model.  A [Return] below for a very wide field therefore
    stands for a run that ends the same way or, on a machine that cannot
    hold the field, in [MemoryError] at this very point. *)
Definition format_string_internal (value : string) (format : InternalFormatSpec)
  : result string :=
  if is_some (sign format) then
    Raise (value_error
      (if match sign format with Some c => Ascii.eqb c " "%char | None => false end
       then "Space not allowed in string format specifier"
       else "Sign not allowed in string format specifier"))
  else if no_neg_0 format then
    Raise (value_error "Negative zero coercion (z) not allowed in string format specifier")
  else if alternate format then
    Raise (value_error "Alternate form (#) not allowed in string format specifier")
  else if Ascii.eqb (align format) "="%char then
    Raise (value_error "'=' alignment not allowed in string format specifier")
  else
    let l := len value in
    if match width format with Some w => w <=? l | None => true end &&
       match precision format with Some p => p >=? l | None => true end
    then Return value
    else
      let l := match precision format with
               | Some p => if l >=? p then p else l
               | None => l
               end in
      let '(lpad, rpad, total) := calc_padding l (width format) (align format) in
      if total >? MAX_STR_LEN then Raise memory_error
      else Return (repeat_char (fill_char format) (Z.to_nat lpad)
                   ++ String.substring 0 (Z.to_nat l) value
                   ++ repeat_char (fill_char format) (Z.to_nat rpad)).

(** [str.__format__(value, format_spec)]. *)
Definition format_str (value format_spec : string) : result string :=
  match format_spec with
  | EmptyString => Return value
  | _ =>
      (format <- parse_internal_render_format_spec format_spec "s"%char "<"%char ;;
       if Ascii.eqb (type format) "s"%char
       then format_string_internal value format
       else Raise (value_error "Unknown format code for object of type 'str'"))%py
  end.

(** ** Vocabulary for the proofs *)

(** Value of the digits [d] read after an accumulator [acc]. *)
Fixpoint uint_acc (d : uint) (acc : Z) : Z :=
  match d with
  | Nil => acc
  | D0 l => uint_acc l (acc * 10 + 0)
  | D1 l => uint_acc l (acc * 10 + 1)
  | D2 l => uint_acc l (acc * 10 + 2)
  | D3 l => uint_acc l (acc * 10 + 3)
  | D4 l => uint_acc l (acc * 10 + 4)
  | D5 l => uint_acc l (acc * 10 + 5)
  | D6 l => uint_acc l (acc * 10 + 6)
  | D7 l => uint_acc l (acc * 10 + 7)
  | D8 l => uint_acc l (acc * 10 + 8)
  | D9 l => uint_acc l (acc * 10 + 9)
  end.

(** The decimal digits of a positive number start with a non-zero digit. *)
Definition head_nonzero (d : uint) : Prop :=
  match d with
  | Nil | D0 _ => False
  | _ => True
  end.

(** A computation whose only failures are [ValueError]s. *)
Definition raises_value_error {A} (r : result A) : Prop :=
  forall e, r = Raise e -> exists m, e = value_error m.

(** A computation whose only failures are [ValueError]s and
    [MemoryError]. *)
Definition raises_format_error {A} (r : result A) : Prop :=
  forall e, r = Raise e -> (exists m, e = value_error m) \/ e = memory_error.

End FormatSpec.

(* ================================================================== *)
(** * Python [float]: IEEE 754 binary64

    Values are the standard library's [spec_float] at precision 53 and
    maximal exponent 1024; subtraction is [SFsub], which rounds to nearest
    with ties to even. *)

Module Float64.

Definition prec : Z := 53.
Definition emax : Z := 1024.

Definition float : Type := spec_float.

(** [x - y]. *)
Definition sub (x y : float) : float := SFsub prec emax x y.

(** [x <= y]. *)
Definition leb (x y : float) : bool := SFleb x y.

Definition valid (x : float) : bool := valid_binary prec emax x.

Definition is_finite (x : float) : bool :=
  match x with
  | S754_zero _ | S754_finite _ _ _ => true
  | S754_infinity _ | S754_nan => false
  end.

(** The sign bit. *)
Definition signbit (x : float) : bool :=
  match x with
  | S754_zero s | S754_infinity s | S754_finite s _ _ => s
  | S754_nan => false
  end.

(** [num / den] rounded to the nearest integer, ties to the even one
    ([0 <= num], [0 < den]). *)
Definition div_half_even (num den : Z) : Z :=
  let q := num / den in
  let r := num mod den in
  match 2 * r ?= den with
  | Lt => q
  | Gt => q + 1
  | Eq => if Z.even q then q else q + 1
  end.

(** [m * 2^e * 10^precision] rounded to the nearest integer, ties to
    even: the digits of the correctly rounded decimal expansion. *)
Definition scaled_digits (precision : nat) (m : positive) (e : Z) : Z :=
  div_half_even (Zpos m * 10 ^ Z.of_nat precision * 2 ^ Z.max e 0)
                (2 ^ Z.max (- e) 0).

Definition digit_char (d : Z) : ascii := ascii_of_N (Z.to_N (48 + d mod 10)).

(** The [n] lowest decimal digits of [q], most significant first. *)
Fixpoint low_digits (n : nat) (q : Z) : string :=
  match n with
  | O => EmptyString
  | S n' => low_digits n' (q / 10) ++ String (digit_char q) EmptyString
  end.

(** Fixed-point text of the scaled integer [q]: integer part, then the
    point and [precision] digits. *)
Definition fixed_digits (precision : nat) (q : Z) : string :=
  NilZero.string_of_uint (N.to_uint (Z.to_N (q / 10 ^ Z.of_nat precision)))
  ++ match precision with
     | O => EmptyString
     | S _ => String "."%char (low_digits precision q)
     end.

(** [format(x, ".<precision>f")]: sign, then the correctly rounded
    fixed-point digits; infinities and NaN are spelled out. *)
Definition format_fixed (precision : nat) (x : float) : string :=
  match x with
  | S754_nan => "nan"
  | S754_infinity s => if s then "-inf" else "inf"
  | S754_zero s => (if s then "-" else "") ++ fixed_digits precision 0
  | S754_finite s m e =>
      (if s then "-" else "") ++ fixed_digits precision (scaled_digits precision m e)
  end.

(** ** Exact values *)

(** Smallest exponent of a binary64 number: -1074. *)
Definition emin : Z := SpecFloat.emin prec emax.

(** The value of a finite number, counted in units of [2^emin]: every
    finite binary64 number is an integer multiple of that unit. *)
Definition ulps (x : float) : Z :=
  match x with
  | S754_finite s m e => cond_Zopp s (Zpos m * 2 ^ (e - emin))
  | _ => 0
  end.

(** A clock reading or a duration: a valid, finite binary64 number. *)
Definition is_number (x : float) : bool := valid x && is_finite x.

(** One second, counted in units of [2^emin]. *)
Definition second : Z := 2 ^ (- emin).

(** [q] thousandths is the magnitude of [x] rounded to three decimals:
    no integer number of thousandths is nearer to [|x|], and of two that are
    equally near the even one is taken. *)
Definition nearest_thousandth (x : float) (q : Z) : Prop :=
  let gap := Z.abs (1000 * Z.abs (ulps x) - q * second) in
  2 * gap <= second /\ (2 * gap = second -> Z.even q = true).

(** The number a string of decimal digits denotes. *)
Definition read_digit (acc : Z) (c : ascii) : Z :=
  acc * 10 + (Z.of_N (N_of_ascii c) - 48).

Definition decimal_value (s : string) : Z :=
  fold_left read_digit (list_ascii_of_string s) 0.

End Float64.
Import Float64.

(* ================================================================== *)
(** * The outside world: the performance counter and standard output *)

Module World.

(** [clock] lists the successive readings of [time.perf_counter], [ticks]
    counts the readings taken so far, [stdout] holds the lines printed. *)
Record world : Type := {
  clock : nat -> float;
  ticks : nat;
  stdout : list string
}.

Definition perf_counter (w : world) : float * world :=
  (clock w (ticks w),
   {| clock := clock w; ticks := S (ticks w); stdout := stdout w |}).

Definition print (line : string) (w : world) : world :=
  {| clock := clock w; ticks := ticks w; stdout := stdout w ++ [line] |}.

End World.
Import World.

(* ================================================================== *)
(** * [contextlib.contextmanager] and the [with] statement

    [_GeneratorContextManager] is written against the generator protocol:
    [next], [throw] and [close].  The section takes these as parameters. *)

Module Contextlib.

(** What resuming a generator produces: a yielded value, or an exception
    leaving the generator ([StopIteration] when its body returns). *)
Inductive gen_out (Y : Type) : Type :=
| Yielded (y : Y)
| Raised (e : exn).
Arguments Yielded {Y} y.
Arguments Raised {Y} e.

Definition runtime_error (m : string) (cause : option exn) : exn :=
  Exc 0 RuntimeError m cause.

Section GeneratorContextManager.
Context {G Y : Type}.
Variable next : G -> world -> gen_out Y * G * world.
Variable throw : exn -> G -> world -> gen_out Y * G * world.
Variable close : G -> world -> result unit * G * world.

(** [__enter__]: advance to the first [yield]. *)
Definition enter (gen : G) (w : world) : result Y * G * world :=
  match next gen w with
  | (Yielded y, gen', w') => (Return y, gen', w')
  | (Raised e, gen', w') =>
      if isinstance e StopIteration
      then (Raise (runtime_error "generator didn't yield" None), gen', w')
      else (Raise e, gen', w')
  end.

(** [raise RuntimeError(m)] inside [try: ... finally: self.gen.close()]. *)
Definition raise_after_close (m : string) (gen : G) (w : world)
  : result bool * G * world :=
  match close gen w with
  | (Return _, gen', w') => (Raise (runtime_error m None), gen', w')
  | (Raise e, gen', w') => (Raise e, gen', w')
  end.

(** [__exit__(typ, value, traceback)]; [value] is [None] on normal exit
    of the block.  The result is the truth value telling the [with]
    statement to suppress the exception. *)
Definition exit (value : option exn) (gen : G) (w : world)
  : result bool * G * world :=
  match value with
  | None =>
      match next gen w with
      | (Raised e, gen', w') =>
          if isinstance e StopIteration
          then (Return false, gen', w')
          else (Raise e, gen', w')
      | (Yielded _, gen', w') =>
          raise_after_close "generator didn't stop" gen' w'
      end
  | Some value =>
      match throw value gen w with
      | (Raised exc, gen', w') =>
          if isinstance exc StopIteration then
            (Return (negb (exn_is exc value)), gen', w')
          else if isinstance exc RuntimeError then
            if exn_is exc value then (Return false, gen', w')
            else if isinstance value StopIteration &&
                    match exn_cause exc with
                    | Some c => exn_is c value
                    | None => false
                    end
            then (Return false, gen', w')
            else (Raise exc, gen', w')
          else
            if exn_is exc value then (Return false, gen', w')
            else (Raise exc, gen', w')
      | (Yielded _, gen', w') =>
          raise_after_close "generator didn't stop after throw()" gen' w'
      end
  end.

(** The block of a [with] statement and what follows it: the block runs
    with the value bound by [as] and the generator object it belongs
    to in scope; its exception, if any, is handed to [__exit__] and
    re-raised unless suppressed. *)
Definition with_block (t : Y) (gen : G)
    (body : Y -> G -> world -> result unit * world) (w : world)
  : result unit * G * world :=
  match body t gen w with
  | (Return _, w2) =>
      match exit None gen w2 with
      | (Return _, gen3, w3) => (Return tt, gen3, w3)
      | (Raise e, gen3, w3) => (Raise e, gen3, w3)
      end
  | (Raise e, w2) =>
      match exit (Some e) gen w2 with
      | (Return true, gen3, w3) => (Return tt, gen3, w3)
      | (Return false, gen3, w3) => (Raise e, gen3, w3)
      | (Raise e', gen3, w3) => (Raise e', gen3, w3)
      end
  end.

(** [with gen as t: body] *)
Definition with_stmt (gen : G)
    (body : Y -> G -> world -> result unit * world) (w : world)
  : result unit * G * world :=
  match enter gen w with
  | (Raise e, gen1, w1) => (Raise e, gen1, w1)
  | (Return t, gen1, w1) => with_block t gen1 body w1
  end.

End GeneratorContextManager.

End Contextlib.
Import Contextlib.

(* ================================================================== *)
(** * [utils.py] *)

Module Utils.

(** The local variables of [timed] that the yielded [lambda] closes over.
    A cell is empty until the assignment to its variable has run. *)
Record cells : Type := {
  start : option float;
  stop : option float
}.

(** Frame of a call [timed(msg, width)]. *)
Record frame : Type := {
  msg : string;
  width : Z;
  vars : cells
}.

Definition set_start (t : float) (f : frame) : frame :=
  {| msg := msg f; width := width f;
     vars := {| start := Some t; stop := stop (vars f) |} |}.

Definition set_stop (t : float) (f : frame) : frame :=
  {| msg := msg f; width := width f;
     vars := {| start := start (vars f); stop := Some t |} |}.

Definition name_error (m : string) : exn := Exc 0 NameError m None.

Definition unbound_local_error (m : string) : exn :=
  Exc 0 (UserClass "UnboundLocalError" NameError) m None.

(** [lambda: stop - start], the elapsed accessor.  The body reads the two
    cells when the function is called, [stop] first; reading an empty cell
    of an enclosing scope raises [NameError]. *)
Definition elapsed (c : cells) : result float :=
  match stop c with
  | None => Raise (name_error "cannot access free variable 'stop' where it is not associated with a value in enclosing scope")
  | Some b =>
      match start c with
      | None => Raise (name_error "cannot access free variable 'start' where it is not associated with a value in enclosing scope")
      | Some a => Return (sub b a)
      end
  end.

(** The value produced by [yield]: a function object, called with the
    cells as they are at the time of the call. *)
Definition accessor : Type := cells -> result float.

(** Reading a variable inside [timed] itself. *)
Definition load (name : string) (c : option float) : result float :=
  match c with
  | Some v => Return v
  | None => Raise (unbound_local_error name)
  end.

(** [f"{msg:<{width}}{stop - start:.3f}s"] *)
Definition summary (f : frame) : result string :=
  (label <- FormatSpec.format_str (msg f) ("<" ++ str_of_int (width f)) ;;
   b <- load "stop" (stop (vars f)) ;;
   a <- load "start" (start (vars f)) ;;
   Return (label ++ format_fixed 3 (sub b a) ++ "s"))%py.

(** The code before the [yield]:
<<
      start = perf_counter()
>> *)
Definition before_yield (f : frame) (w : world) : frame * world :=
  let '(t, w1) := perf_counter w in
  (set_start t f, w1).

(** The code after the [yield], run when the generator is resumed
    normally:
<<
      stop = perf_counter()
      print(f"{msg:<{width}}{stop - start:.3f}s")
>> *)
Definition after_yield (f : frame) (w : world) : result unit * frame * world :=
  let '(t, w1) := perf_counter w in
  let f1 := set_stop t f in
  match summary f1 with
  | Return line => (Return tt, f1, print line w1)
  | Raise e => (Raise e, f1, w1)
  end.

(** A generator object of [timed]: not started, suspended at its only
    [yield], or finished. *)
Inductive gen_state : Type := GEN_CREATED | GEN_SUSPENDED | GEN_CLOSED.

Record generator : Type := {
  gi_state : gen_state;
  gi_frame : frame
}.

(** Calling the generator function binds the arguments and runs nothing. *)
Definition timed (msg : string) (width : Z) : generator :=
  {| gi_state := GEN_CREATED;
     gi_frame := {| msg := msg; width := width;
                    vars := {| start := None; stop := None |} |} |}.

(** Default arguments: [msg=''], [width=40]. *)
Definition default_msg : string := "".
Definition default_width : Z := 40.
Definition timed_default : generator := timed default_msg default_width.

Definition closed (f : frame) : generator :=
  {| gi_state := GEN_CLOSED; gi_frame := f |}.

Definition stop_iteration : exn := Exc 0 StopIteration "" None.

(** An exception leaving the generator body; a [StopIteration] is
    replaced by a [RuntimeError] whose cause it is (PEP 479). *)
Definition leave (e : exn) : exn :=
  if isinstance e StopIteration
  then runtime_error "generator raised StopIteration" (Some e)
  else e.

(** [next(gen)] *)
Definition next (gen : generator) (w : world)
  : gen_out accessor * generator * world :=
  match gi_state gen with
  | GEN_CREATED =>
      let '(f, w1) := before_yield (gi_frame gen) w in
      (Yielded elapsed, {| gi_state := GEN_SUSPENDED; gi_frame := f |}, w1)
  | GEN_SUSPENDED =>
      match after_yield (gi_frame gen) w with
      | (Return _, f, w1) => (Raised stop_iteration, closed f, w1)
      | (Raise e, f, w1) => (Raised (leave e), closed f, w1)
      end
  | GEN_CLOSED => (Raised stop_iteration, gen, w)
  end.

(** [gen.throw(value)]: the exception is raised at the point where the
    generator is paused.  No statement of [timed] is inside a [try], so
    the exception leaves the generator at once and the code after the
    [yield] does not run. *)
Definition throw (value : exn) (gen : generator) (w : world)
  : gen_out accessor * generator * world :=
  match gi_state gen with
  | GEN_CREATED | GEN_SUSPENDED => (Raised (leave value), closed (gi_frame gen), w)
  | GEN_CLOSED => (Raised value, gen, w)
  end.

(** [gen.close()] *)
Definition close (gen : generator) (w : world) : result unit * generator * world :=
  (Return tt, closed (gi_frame gen), w).

(** The block under [with]: it may call the accessor it was given, read
    the clock and print. *)
Definition block : Type := (unit -> result float) -> world -> result unit * world.

(** The accessor as the block sees it: a call reads the cells of the
    generator object at that moment. *)
Definition bound (body : block) (t : accessor) (gen : generator)
  : world -> result unit * world :=
  body (fun _ => t (vars (gi_frame gen))).

(** [with timed(msg, width) as t: body] *)
Definition with_timed (msg : string) (width : Z) (body : block) (w : world)
  : result unit * generator * world :=
  with_stmt next throw close (timed msg width) (bound body) w.

(** A timed block used as the block of another [with timed(...)]:
<<
      with timed(outer, ...):
          with timed(msg, width) as t:
              body
>>
    The inner statement does not use the accessor of the outer one. *)
Definition nested (msg : string) (width : Z) (body : block) : block :=
  fun _ w => let '(r, _, w') := with_timed msg width body w in (r, w').

(** Calling the accessor once the [with] statement is over. *)
Definition call_after (gen : generator) : result float :=
  elapsed (vars (gi_frame gen)).

(** How the block of [with timed(msg, width) as t] ends, and the world it
    leaves behind. *)
Definition block_outcome (msg : string) (width : Z) (body : block) (w : world)
  : result unit * world :=
  match enter next (timed msg width) w with
  | (Return t, gen, w1) => bound body t gen w1
  | (Raise e, _, w1) => (Raise e, w1)
  end.

(** The reading the next call of [perf_counter] returns. *)
Definition next_reading (w : world) : float := clock w (ticks w).

(** The generator object while the block runs: suspended at the [yield],
    [start] assigned and [stop] not yet. *)
Definition suspended (msg : string) (width : Z) (t0 : float) : generator :=
  {| gi_state := GEN_SUSPENDED;
     gi_frame := {| msg := msg; width := width;
                    vars := {| start := Some t0; stop := None |} |} |}.

(** The generator object once the code after the [yield] has run. *)
Definition finished (msg : string) (width : Z) (t0 t1 : float) : generator :=
  closed {| msg := msg; width := width;
            vars := {| start := Some t0; stop := Some t1 |} |}.

(** The lines standard output gains between the end of the block and the
    end of the [with] statement: what the timer itself writes. *)
Definition timer_lines (msg : string) (width : Z) (body : block) (w : world)
  : list string :=
  let '(_, w2) := block_outcome msg width body w in
  let '(_, _, w3) := with_timed msg width body w in
  skipn (List.length (stdout w2)) (stdout w3).

(** Whether the format mini-language reads the decimal text of [n] as a
    field width: no sign, and no more than [get_integer] accepts.  A
    width outside this range makes the f-string fail; one inside it is
    parsed, which does not yet mean that the field can be built. *)
Definition valid_width (n : Z) : bool :=
  (0 <=? n) && (n <=? FormatSpec.PY_SSIZE_T_MAX).

(** Whether the interpreter itself lets the label field be built: a label
    at least [n] characters long is used as it is, and a padded field
    must not exceed [MAX_STR_LEN]. *)
Definition field_fits (s : string) (n : Z) : bool :=
  (n <=? len s) || (n <=? FormatSpec.MAX_STR_LEN).

(** Left justification as [str.ljust] does it: the text, then spaces up
    to [n] characters; a longer text is left as it is. *)
Definition ljust (s : string) (n : Z) : string :=
  s ++ repeat_char " " (Z.to_nat (n - len s)).

Definition is_digit (c : ascii) : bool :=
  (48 <=? N_of_ascii c)%N && (N_of_ascii c <=? 57)%N.

Definition all_digits (s : string) : bool :=
  forallb is_digit (list_ascii_of_string s).


End Utils.
Import Utils.

(* ================================================================== *)
(** * Sample runs *)

Module Samples.

(** 1.0, 1.25 and 0.25 as binary64 numbers. *)
Definition one : float := S754_finite false 4503599627370496 (-52).
Definition one_and_a_quarter : float := S754_finite false 5629499534213120 (-52).
Definition a_quarter : float := S754_finite false 4503599627370496 (-54).

(** A clock whose first reading is 1.0 and whose later readings are 1.25. *)
Definition sample_clock (n : nat) : float :=
  match n with
  | O => one
  | S _ => one_and_a_quarter
  end.

Definition sample_world : world :=
  {| clock := sample_clock; ticks := 0; stdout := [] |}.

(** [pass] *)
Definition block_pass : block := fun _ w => (Return tt, w).

(** [raise e] *)
Definition block_raise (e : exn) : block := fun _ w => (Raise e, w).

(** [t()] *)
Definition block_call : block :=
  fun t w => match t tt with
             | Return _ => (Return tt, w)
             | Raise e => (Raise e, w)
             end.

Definition boom : exn := Exc 1 (UserClass "Boom" Exception) "boom" None.

(** 1.1, the binary64 number nearest to it. *)
Definition one_point_one : float := S754_finite false 4953959590107546 (-52).

(** A block that takes a tenth of a second on a clock started at 1.0. *)
Definition tenth_world : world :=
  {| clock := fun n => match n with O => one | S _ => one_point_one end;
     ticks := 0; stdout := [] |}.

(** Two readings whose exact difference, [2^-4 + 2^-58], is not a binary64
    number: [3 * 2^-58] and [2^-4 + 2^-56]. *)
Definition early_reading : float := S754_finite false 6755399441055744 (-109).
Definition late_reading : float := S754_finite false 4503599627370497 (-56).

(** A clock that stands still at 1.0. *)
Definition frozen_world : world :=
  {| clock := fun _ => one; ticks := 0; stdout := [] |}.

(** [2^-12], about a quarter of a millisecond, and 1.0 plus that much. *)
Definition a_4096th : float := S754_finite false 4503599627370496 (-64).
Definition one_and_a_4096th : float := S754_finite false 4504699138998272 (-52).

Definition brief_world : world :=
  {| clock := fun n => match n with O => one | S _ => one_and_a_4096th end;
     ticks := 0; stdout := [] |}.

End Samples.
Import Samples.

(* ================================================================== *)
(** * Exception objects *)

Lemma class_eqb_refl (c : exn_class) : class_eqb c c = true.
Proof.
  induction c; simpl; trivial.
  now rewrite String.eqb_refl, IHc.
Qed.

Lemma exn_is_refl (e : exn) : exn_is e e = true.
Proof.
  revert e. fix IH 1. intros [i c m k]. cbn [exn_is].
  rewrite Nat.eqb_refl, class_eqb_refl, String.eqb_refl. cbn [andb].
  destruct k as [x|]; [apply IH | reflexivity].
Qed.

(** The wrapper of PEP 479 is a [RuntimeError], never a [StopIteration]. *)
Lemma leave_not_StopIteration (e : exn) :
  isinstance (leave e) StopIteration = false.
Proof.
  unfold leave. destruct (isinstance e StopIteration) eqn:E; [reflexivity | exact E].
Qed.

Lemma leave_value_error (m : string) :
  leave (FormatSpec.value_error m) = FormatSpec.value_error m.
Proof. reflexivity. Qed.

(* ================================================================== *)
(** * Failures of the format mini-language

    Every failure of the parser is a [ValueError]; the renderer can also
    raise [MemoryError]. *)

Module FormatFacts.
Import FormatSpec.

Lemma rve_return {A} (a : A) : raises_value_error (Return a).
Proof. intros e; discriminate. Qed.

Lemma rve_raise {A} (m : string) : raises_value_error (@Raise A (value_error m)).
Proof. intros e [= <-]; eauto. Qed.

Lemma rve_bind {A B} (r : result A) (k : A -> result B) :
raises_value_error r -> (forall a, raises_value_error (k a)) ->
raises_value_error (bind r k).
Proof.
intros Hr Hk. destruct r as [a|e]; cbn [bind]; [apply Hk|].
intros e' [= <-]. now apply Hr.
Qed.

Create HintDb rve.
#[local] Hint Resolve rve_return rve_raise : rve.

Lemma get_integer_rve (s : string) (acc : Z) (n : nat) :
raises_value_error (get_integer s acc n).
Proof.
revert acc n. induction s as [|c s IH]; intros acc n; cbn [get_integer]; auto with rve.
destruct (digit_value c); auto with rve.
destruct (_ >? _); auto with rve.
Qed.

Lemma parse_separators_rve (s : string) : raises_value_error (parse_separators s).
Proof.
unfold parse_separators.
destruct (take_if _ s) as [c s1]. destruct (take_if _ s1) as [u s2].
destruct (_ && _); auto with rve.
Qed.

Lemma parse_precision_rve (s : string) : raises_value_error (parse_precision s).
Proof.
unfold parse_precision. destruct (take_if _ s) as [d s1].
destruct (is_some d); auto with rve.
apply rve_bind; [apply get_integer_rve|].
intros [[p [|c]] s2]; auto with rve.
Qed.

Lemma parse_type_rve (s : string) (ty : ascii) : raises_value_error (parse_type s ty).
Proof. destruct s as [|c [|c' s]]; cbn [parse_type]; auto with rve. Qed.

Lemma check_separators_rve (seps : locale_type) (ty : ascii) :
raises_value_error (check_separators seps ty).
Proof.
unfold check_separators. destruct seps; auto with rve.
all: destruct (_ || _); auto with rve.
Qed.

Lemma parse_from_width_rve (fill algn : ascii) (alt z : bool)
    (sgn : option ascii) (s : string) (ty : ascii) :
  raises_value_error (parse_from_width fill algn alt z sgn s ty).
Proof.
  unfold parse_from_width.
  apply rve_bind; [apply get_integer_rve|]. intros [[wd c] s6].
  apply rve_bind; [apply parse_separators_rve|]. intros [seps s8].
  apply rve_bind; [apply parse_precision_rve|]. intros [pr s10].
  apply rve_bind; [apply parse_type_rve|]. intros typ.
  apply rve_bind; [apply check_separators_rve|]. intros _.
  auto with rve.
Qed.

Lemma parse_rve (spec : string) (ty al : ascii) :
  raises_value_error (parse_internal_render_format_spec spec ty al).
Proof.
  unfold parse_internal_render_format_spec.
  destruct (parse_fill_align spec al) as [[[[fill fs] algn] als] s1].
  destruct (take_if is_sign_element s1) as [sg s2].
  destruct (take_if _ s2) as [z s3].
  destruct (take_if _ s3) as [alt s4].
  destruct (if fs then _ else _) as [zp s5].
  apply parse_from_width_rve.
Qed.

Lemma rve_format_error {A} (r : result A) :
  raises_value_error r -> raises_format_error r.
Proof. intros H e E. left. now apply H. Qed.

(** The renderer can also fail for want of room. *)
Lemma format_string_internal_rfe (value : string) (f : InternalFormatSpec) :
  raises_format_error (format_string_internal value f).
Proof.
  unfold format_string_internal.
  repeat match goal with
         | |- raises_format_error (if ?b then _ else _) =>
             destruct b; try solve [apply rve_format_error; auto with rve]
         end.
  destruct (calc_padding _ _ _) as [[? ?] total].
  destruct (total >? MAX_STR_LEN).
  - intros e [= <-]. now right.
  - apply rve_format_error; auto with rve.
Qed.

Lemma format_str_rfe (value spec : string) :
  raises_format_error (format_str value spec).
Proof.
  unfold format_str. destruct spec as [|c spec]; [apply rve_format_error; auto with rve|].
  pose proof (parse_rve (String c spec) "s" "<") as P.
  destruct (parse_internal_render_format_spec _ _ _) as [f|e]; cbn [bind].
  - destruct (Ascii.eqb _ _); [apply format_string_internal_rfe|].
    apply rve_format_error; auto with rve.
  - intros e' [= <-]. left. now apply P.
Qed.

(** ** The specifier built by [timed]: ["<"] and the decimal width *)

Lemma uint_acc_mono (d : uint) (acc : Z) : 0 <= acc -> acc <= uint_acc d acc.
Proof.
  revert acc. induction d; intros acc H; cbn [uint_acc]; [lia|..].
  all: match goal with |- _ <= uint_acc _ ?a => specialize (IHd a); lia end.
Qed.

Lemma uint_acc_pos (d : uint) (p : positive) :
  uint_acc d (Zpos p) = Zpos (Pos.of_uint_acc d p).
Proof.
  revert p. induction d; intros p; cbn [uint_acc Pos.of_uint_acc]; [reflexivity|..].
  all: rewrite <- IHd; f_equal; lia.
Qed.

Lemma overflow_check (a k : Z) :
  0 <= k <= 9 ->
  (a >? (PY_SSIZE_T_MAX - k) / 10) = (PY_SSIZE_T_MAX <? a * 10 + k).
Proof.
  intros Hk.
  pose proof (Z.div_mod (PY_SSIZE_T_MAX - k) 10 ltac:(lia)) as E.
  pose proof (Z.mod_pos_bound (PY_SSIZE_T_MAX - k) 10 ltac:(lia)) as B.
  set (q := (PY_SSIZE_T_MAX - k) / 10) in *.
  set (r := (PY_SSIZE_T_MAX - k) mod 10) in *.
  destruct (Z.gtb_spec a q), (Z.ltb_spec PY_SSIZE_T_MAX (a * 10 + k)); trivial; lia.
Qed.

(** [get_integer] on a string of decimal digits. *)
Lemma get_integer_digits (d : uint) (acc : Z) (n : nat) :
  0 <= acc <= PY_SSIZE_T_MAX ->
  get_integer (NilEmpty.string_of_uint d) acc n =
  if uint_acc d acc <=? PY_SSIZE_T_MAX
  then Return (uint_acc d acc, (nb_digits d + n)%nat, "")
  else Raise (value_error "Too many decimal digits in format string").
Proof.
  revert acc n. induction d as [|d IHd|d IHd|d IHd|d IHd|d IHd|d IHd|d IHd|d IHd|d IHd|d IHd]; intros acc n Hacc.
  { cbn [NilEmpty.string_of_uint get_integer uint_acc nb_digits Nat.add].
    destruct (Z.leb_spec acc PY_SSIZE_T_MAX); [reflexivity | lia]. }
  all: cbn [NilEmpty.string_of_uint get_integer uint_acc nb_digits].
  all: match goal with |- context [digit_value ?c] =>
         let v := eval vm_compute in (digit_value c) in
         change (digit_value c) with v end.
  all: cbv beta iota.
  all: rewrite overflow_check by lia.
  all: match goal with |- context [PY_SSIZE_T_MAX <? ?a] =>
         destruct (Z.ltb_spec PY_SSIZE_T_MAX a) as [Hov|Hok] end.
  all: try (rewrite IHd by lia; rewrite Nat.add_succ_r; reflexivity).
  all: match goal with |- context [uint_acc ?l ?a] =>
         pose proof (uint_acc_mono l a ltac:(lia)) end.
  all: match goal with |- context [?x <=? PY_SSIZE_T_MAX] =>
         destruct (Z.leb_spec x PY_SSIZE_T_MAX); [lia | reflexivity] end.
Qed.

Lemma unorm_head (d : uint) : unorm d = zero \/ head_nonzero (unorm d).
Proof.
  induction d; cbn [unorm]; trivial; try (right; exact I).
  now left.
Qed.

Lemma to_uint_head (p : positive) : head_nonzero (Pos.to_uint p).
Proof.
  pose proof (DecimalPos.Unsigned.to_of (Pos.to_uint p)) as E.
  rewrite DecimalPos.Unsigned.of_to in E. cbn [N.to_uint] in E.
  destruct (unorm_head (Pos.to_uint p)) as [Hz|Hn].
  - rewrite <- E in Hz. now apply DecimalPos.Unsigned.to_uint_nonzero in Hz.
  - now rewrite <- E in Hn.
Qed.

Lemma to_uint_value (p : positive) : uint_acc (Pos.to_uint p) 0 = Zpos p.
Proof.
  pose proof (DecimalPos.Unsigned.of_to p) as E.
  pose proof (to_uint_head p) as H.
  destruct (Pos.to_uint p); try contradiction;
    cbn [Pos.of_uint] in E; injection E as E;
    cbn [uint_acc]; rewrite <- E, <- uint_acc_pos; reflexivity.
Qed.

Lemma str_of_int_pos (p : positive) :
  str_of_int (Zpos p) = NilEmpty.string_of_uint (Pos.to_uint p).
Proof.
  unfold str_of_int. cbn [Z.to_int NilZero.string_of_int].
  pose proof (to_uint_head p). now destruct (Pos.to_uint p).
Qed.

Lemma str_of_int_neg (p : positive) :
  str_of_int (Zneg p) = String "-" (NilEmpty.string_of_uint (Pos.to_uint p)).
Proof.
  unfold str_of_int. cbn [Z.to_int NilZero.string_of_int].
  pose proof (to_uint_head p). now destruct (Pos.to_uint p).
Qed.

(** Parsing ["<"] followed by the digits of a positive number: no flag is
    set and the digits are the width. *)
Lemma parse_left_digits (d : uint) (ty : ascii) :
  head_nonzero d ->
  parse_internal_render_format_spec (String "<" (NilEmpty.string_of_uint d)) ty "<" =
  parse_from_width " " "<" false false None (NilEmpty.string_of_uint d) ty.
Proof.
  intros H. destruct d; try contradiction; reflexivity.
Qed.

(** With a minus sign in front of the digits, the sign flag is set. *)
Lemma parse_left_minus_digits (d : uint) (ty : ascii) :
  head_nonzero d ->
  parse_internal_render_format_spec
    (String "<" (String "-" (NilEmpty.string_of_uint d))) ty "<" =
  parse_from_width " " "<" false false (Some "-"%char) (NilEmpty.string_of_uint d) ty.
Proof.
  intros H. destruct d; try contradiction; reflexivity.
Qed.

Lemma parse_from_width_digits (fill algn : ascii) (alt z : bool)
    (sgn : option ascii) (d : uint) :
  head_nonzero d ->
  parse_from_width fill algn alt z sgn (NilEmpty.string_of_uint d) "s" =
  if uint_acc d 0 <=? PY_SSIZE_T_MAX
  then Return {| fill_char := fill; align := algn; alternate := alt;
                 no_neg_0 := z; sign := sgn; width := Some (uint_acc d 0);
                 thousands_separators := LT_NO_LOCALE; precision := None;
                 type := "s" |}
  else Raise (value_error "Too many decimal digits in format string").
Proof.
  intros H. unfold parse_from_width.
  rewrite get_integer_digits by (unfold PY_SSIZE_T_MAX; lia).
  destruct (_ <=? _); [|reflexivity].
  destruct d; try contradiction; reflexivity.
Qed.

Lemma substring_all (s : string) : substring 0 (String.length s) s = s.
Proof. induction s as [|c s IH]; cbn [substring String.length]; [|rewrite IH]; reflexivity. Qed.

Lemma append_empty (s : string) : s ++ "" = s.
Proof. induction s as [|c s IH]; cbn [append]; [|rewrite IH]; reflexivity. Qed.

Lemma repeat_char_0 (c : ascii) (n : Z) : n <= 0 -> repeat_char c (Z.to_nat n) = "".
Proof. intros H. replace (Z.to_nat n) with 0%nat by lia. reflexivity. Qed.

(** Rendering under a left-aligned specifier without flags: the text, then
    the fill character up to the width, when a field that wide may be
    asked for. *)
Lemma format_string_internal_left (fill : ascii) (wd : option Z) (value : string) :
  format_string_internal value
    {| fill_char := fill; align := "<"; alternate := false; no_neg_0 := false;
       sign := None; width := wd; thousands_separators := LT_NO_LOCALE;
       precision := None; type := "s" |} =
  match wd with
  | Some w =>
      if (w <=? len value) || (w <=? MAX_STR_LEN)
      then Return (value ++ repeat_char fill (Z.to_nat (w - len value)))
      else Raise memory_error
  | None => Return value
  end.
Proof.
  unfold format_string_internal, calc_padding.
  cbn [sign no_neg_0 alternate align precision width fill_char is_some].
  change (Ascii.eqb "<" "=") with false. change (Ascii.eqb "<" ">") with false.
  change (Ascii.eqb "<" "^") with false. cbv iota.
  destruct wd as [w|]; [|reflexivity]. rewrite andb_true_r.
  destruct (Z.leb_spec w (len value)) as [Hle|Hgt]; cbn [orb].
  - now rewrite repeat_char_0, append_empty by lia.
  - replace (len value >? w) with false
      by (symmetry; rewrite Z.gtb_ltb; apply Z.ltb_ge; lia).
    rewrite Z.gtb_ltb, Z.ltb_antisym.
    destruct (w <=? MAX_STR_LEN); cbn [negb]; [|reflexivity].
    replace (Z.to_nat (len value)) with (String.length value) by (unfold len; lia).
    rewrite substring_all.
    change (repeat_char fill (Z.to_nat 0)) with "". cbn [append].
    do 3 f_equal. lia.
Qed.

(** The label field of the summary line, for every width. *)
Lemma format_label (label : string) (w : Z) :
  format_str label ("<" ++ str_of_int w) =
  if (0 <=? w) && (w <=? PY_SSIZE_T_MAX)
  then if (w <=? len label) || (w <=? MAX_STR_LEN)
       then Return (ljust label w) else Raise memory_error
  else if w <? - PY_SSIZE_T_MAX
       then Raise (value_error "Too many decimal digits in format string")
       else if w <? 0
            then Raise (value_error "Sign not allowed in string format specifier")
            else Raise (value_error "Too many decimal digits in format string").
Proof.
  destruct w as [|p|p].
  - change (format_str label ("<" ++ str_of_int 0))
      with (format_string_internal label
              {| fill_char := "0"; align := "<"; alternate := false; no_neg_0 := false;
                 sign := None; width := None; thousands_separators := LT_NO_LOCALE;
                 precision := None; type := "s" |}).
    rewrite format_string_internal_left. cbn [andb Z.leb Z.compare].
    change (0 <=? MAX_STR_LEN) with true. rewrite orb_true_r.
    unfold ljust. rewrite !repeat_char_0 by (unfold len; lia).
    now rewrite append_empty.
  - rewrite str_of_int_pos. cbn [append]. unfold format_str.
    rewrite parse_left_digits, parse_from_width_digits by apply to_uint_head.
    rewrite to_uint_value.
    replace (0 <=? Z.pos p) with true by (symmetry; apply Z.leb_le; lia). cbn [andb].
    destruct (Z.leb_spec (Z.pos p) PY_SSIZE_T_MAX) as [Hle|Hgt]; cbn [bind].
    + cbn [type]. change (Ascii.eqb "s" "s") with true. cbv iota.
      rewrite format_string_internal_left. reflexivity.
    + replace (Z.pos p <? - PY_SSIZE_T_MAX) with false
        by (symmetry; apply Z.ltb_ge; unfold PY_SSIZE_T_MAX; lia).
      reflexivity.
  - rewrite str_of_int_neg. cbn [append]. unfold format_str.
    rewrite parse_left_minus_digits, parse_from_width_digits by apply to_uint_head.
    rewrite to_uint_value.
    change (0 <=? Z.neg p) with false. cbn [andb].
    change (Z.neg p <? 0) with true. cbv iota.
    destruct (Z.leb_spec (Z.pos p) PY_SSIZE_T_MAX) as [Hle|Hgt]; cbn [bind].
    + replace (Z.neg p <? - PY_SSIZE_T_MAX) with false
        by (symmetry; apply Z.ltb_ge; lia).
      reflexivity.
    + replace (Z.neg p <? - PY_SSIZE_T_MAX) with true
        by (symmetry; apply Z.ltb_lt; lia).
      reflexivity.
Qed.

End FormatFacts.
Import FormatFacts.

(* ================================================================== *)
(** * Entering and leaving the context manager *)

(** Handing the exception of the block to [__exit__] never suppresses nor
    replaces it: the generator lets it through and [__exit__] answers
    [False]. *)
Lemma exit_throw (e : exn) (gen : generator) (w : world) :
  gi_state gen = GEN_SUSPENDED ->
  exit next throw close (Some e) gen w = (Return false, closed (gi_frame gen), w).
Proof.
  intros Hs. unfold exit, throw. rewrite Hs.
  unfold leave. destruct (isinstance e StopIteration) eqn:Hstop.
  - cbn -[exn_is].
    destruct (exn_is _ e); [reflexivity|].
    now rewrite exn_is_refl.
  - rewrite Hstop, exn_is_refl. now destruct (isinstance e RuntimeError).
Qed.

(* ================================================================== *)
(** * The two ways through [with timed(...)] *)

Section Runs.
Variables (label : string) (column_width : Z) (body : block) (w : world).

Lemma enter_timed :
  enter next (timed label column_width) w =
  (Return elapsed, suspended label column_width (next_reading w), snd (perf_counter w)).
Proof. reflexivity. Qed.

Lemma with_timed_entered :
  with_timed label column_width body w =
  with_block next throw close elapsed
    (suspended label column_width (next_reading w)) (bound body) (snd (perf_counter w)).
Proof. reflexivity. Qed.

Lemma block_outcome_eq :
  block_outcome label column_width body w =
  bound body elapsed (suspended label column_width (next_reading w)) (snd (perf_counter w)).
Proof. reflexivity. Qed.

(** The block raises: nothing of [timed] runs any more. *)
Lemma with_timed_raise (e : exn) (w2 : world) :
  block_outcome label column_width body w = (Raise e, w2) ->
  with_timed label column_width body w =
  (Raise e, closed (gi_frame (suspended label column_width (next_reading w))), w2).
Proof.
  rewrite block_outcome_eq, with_timed_entered. intros Hb.
  unfold with_block. rewrite Hb. now rewrite exit_throw.
Qed.

(** The block returns: the clock is read again and the line is built and
    printed, unless building it fails. *)
Lemma with_timed_return (u : unit) (w2 : world) :
  block_outcome label column_width body w = (Return u, w2) ->
  with_timed label column_width body w =
  match FormatSpec.format_str label ("<" ++ str_of_int column_width) with
  | Return field =>
      (Return tt, finished label column_width (next_reading w) (next_reading w2),
       print (field ++ format_fixed 3 (sub (next_reading w2) (next_reading w)) ++ "s")
             (snd (perf_counter w2)))
  | Raise e =>
      (Raise e, finished label column_width (next_reading w) (next_reading w2),
       snd (perf_counter w2))
  end.
Proof.
  rewrite block_outcome_eq, with_timed_entered. intros Hb.
  unfold with_block. rewrite Hb.
  unfold exit, next, suspended. cbn [gi_state gi_frame].
  unfold after_yield, summary.
  cbn [perf_counter set_stop vars stop start msg width bind load].
  destruct (FormatSpec.format_str label _) as [field|e] eqn:Hf; cbn [bind].
  - reflexivity.
  - destruct (format_str_rfe _ _ _ Hf) as [[m ->]| ->]; reflexivity.
Qed.
End Runs.

(* ================================================================== *)
(** * The lines the timer writes *)

Section Lines.
Variables (label : string) (column_width : Z) (body : block) (w : world).

Lemma skipn_length_app {A} (l x : list A) : skipn (List.length l) (l ++ x) = x.
Proof. induction l; [reflexivity | assumption]. Qed.

Lemma timer_lines_raise (e : exn) (w2 : world) :
  block_outcome label column_width body w = (Raise e, w2) ->
  timer_lines label column_width body w = [].
Proof.
  intros Hb. unfold timer_lines. rewrite Hb, (with_timed_raise _ _ _ _ _ _ Hb).
  rewrite <- (List.app_nil_r (stdout w2)) at 2. apply skipn_length_app.
Qed.

Lemma timer_lines_return (u : unit) (w2 : world) :
  block_outcome label column_width body w = (Return u, w2) ->
  timer_lines label column_width body w =
  if valid_width column_width && field_fits label column_width
  then [ljust label column_width
        ++ format_fixed 3 (sub (next_reading w2) (next_reading w)) ++ "s"]
  else [].
Proof.
  intros Hb. unfold timer_lines. rewrite Hb, (with_timed_return _ _ _ _ _ _ Hb).
  rewrite format_label. fold (valid_width column_width).
  fold (field_fits label column_width).
  assert (E : forall l : list string, skipn (List.length l) l = [])
    by (intros l; rewrite <- (List.app_nil_r l) at 2; apply skipn_length_app).
  destruct (valid_width column_width); cbn [andb].
  - destruct (field_fits label column_width); [|apply E].
    cbn [print stdout]. apply skipn_length_app.
  - destruct (_ <? _); [|destruct (_ <? _)]; apply E.
Qed.

(** With a block that returns, the statement completes normally exactly
    when the model lets the field be built. *)
Lemma with_timed_result_return (u : unit) (w2 : world) :
  block_outcome label column_width body w = (Return u, w2) ->
  fst (fst (with_timed label column_width body w)) = Return tt <->
  valid_width column_width && field_fits label column_width = true.
Proof.
  intros Hb. rewrite (with_timed_return _ _ _ _ _ _ Hb), format_label.
  fold (valid_width column_width). fold (field_fits label column_width).
  destruct (valid_width column_width); cbn [andb].
  - destruct (field_fits label column_width); cbn [fst]; split; congruence.
  - destruct (_ <? _); [|destruct (_ <? _)]; cbn [fst]; split; congruence.
Qed.
End Lines.

(* ================================================================== *)
(** * The text of a number printed with [.3f] *)

Lemma all_digits_app (a b : string) :
  all_digits (a ++ b) = all_digits a && all_digits b.
Proof.
  unfold all_digits. induction a as [|c a IH]; [reflexivity|].
  cbn [append list_ascii_of_string forallb]. now rewrite IH, andb_assoc.
Qed.

Lemma length_app (a b : string) :
  String.length (a ++ b) = (String.length a + String.length b)%nat.
Proof. induction a as [|c a IH]; cbn [append String.length Nat.add]; congruence. Qed.

Lemma is_digit_digit_char (d : Z) : is_digit (digit_char d) = true.
Proof.
  unfold is_digit, digit_char.
  pose proof (Z.mod_pos_bound d 10 ltac:(lia)) as B.
  rewrite N_ascii_embedding by lia.
  apply andb_true_iff; split; apply N.leb_le; lia.
Qed.

Lemma low_digits_length (n : nat) (q : Z) : String.length (low_digits n q) = n.
Proof.
  revert q. induction n as [|n IH]; intros q; cbn [low_digits]; [reflexivity|].
  rewrite length_app, IH. cbn [String.length]. lia.
Qed.

Lemma low_digits_all_digits (n : nat) (q : Z) : all_digits (low_digits n q) = true.
Proof.
  revert q. induction n as [|n IH]; intros q; cbn [low_digits]; [reflexivity|].
  rewrite all_digits_app, IH. unfold all_digits.
  cbn [list_ascii_of_string forallb]. now rewrite is_digit_digit_char.
Qed.

Lemma uint_all_digits (d : uint) : all_digits (NilEmpty.string_of_uint d) = true.
Proof. induction d; cbn [NilEmpty.string_of_uint]; trivial. Qed.

(** The integer part: at least one character, digits only. *)
Lemma whole_part_digits (d : uint) :
  exists c r, NilZero.string_of_uint d = String c r /\
              is_digit c = true /\ all_digits (String c r) = true.
Proof.
  destruct d; cbn [NilZero.string_of_uint NilEmpty.string_of_uint];
    do 2 eexists; (split; [reflexivity|]); split; trivial;
    try reflexivity; apply (uint_all_digits (D0 _)) || idtac.
  all: match goal with |- all_digits (String ?c (NilEmpty.string_of_uint ?d)) = true =>
         change (is_digit c && all_digits (NilEmpty.string_of_uint d) = true);
         now rewrite uint_all_digits end.
Qed.




(* ================================================================== *)
(** * Binary64 arithmetic: values, order and exact differences *)

Module FloatFacts.
Import FormatSpec.

(** Number of binary digits. *)
Lemma digits2_size (m : positive) : digits2_pos m = Pos.size m.
Proof. induction m; cbn [digits2_pos Pos.size]; congruence. Qed.

Lemma digits2_bounds (m : positive) :
  2 ^ (Zpos (digits2_pos m) - 1) <= Zpos m < 2 ^ Zpos (digits2_pos m).
Proof.
  induction m as [m IH|m IH|]; cbn [digits2_pos].
  - rewrite Pos2Z.inj_succ. change (Zpos m~1) with (2 * Zpos m + 1).
    replace (Z.succ (Zpos (digits2_pos m)) - 1) with (Z.succ (Zpos (digits2_pos m) - 1)) by lia.
    rewrite !Z.pow_succ_r by lia.
    revert IH. generalize (2 ^ (Zpos (digits2_pos m) - 1)) (2 ^ Zpos (digits2_pos m)). lia.
  - rewrite Pos2Z.inj_succ. change (Zpos m~0) with (2 * Zpos m).
    replace (Z.succ (Zpos (digits2_pos m)) - 1) with (Z.succ (Zpos (digits2_pos m) - 1)) by lia.
    rewrite !Z.pow_succ_r by lia.
    revert IH. generalize (2 ^ (Zpos (digits2_pos m) - 1)) (2 ^ Zpos (digits2_pos m)). lia.
  - change (2 ^ (1 - 1)) with 1. change (2 ^ 1) with 2. lia.
Qed.

(** The number of digits is determined by the bracket of powers of two. *)
Lemma digits2_unique (m : positive) (d : Z) :
  2 ^ (d - 1) <= Zpos m < 2 ^ d -> Zpos (digits2_pos m) = d.
Proof.
  intros [Hl Hu]. pose proof (digits2_bounds m) as [Bl Bu].
  assert (0 < d).
  { destruct (Z.ltb_spec 0 d); trivial.
    exfalso. destruct (Z.eq_dec d 0) as [->|Hd].
    - change (2 ^ 0) with 1 in Hu. lia.
    - rewrite Z.pow_neg_r in Hu by lia. lia. }
  assert (d - 1 < Zpos (digits2_pos m)).
  { apply (Z.pow_lt_mono_r_iff 2); lia. }
  assert (Zpos (digits2_pos m) - 1 < d).
  { apply (Z.pow_lt_mono_r_iff 2); lia. }
  lia.
Qed.

Lemma digits2_shift (m : positive) (k : Z) (p : positive) :
  0 <= k -> Zpos p = Zpos m * 2 ^ k ->
  Zpos (digits2_pos p) = Zpos (digits2_pos m) + k.
Proof.
  intros Hk E. apply digits2_unique. rewrite E.
  pose proof (digits2_bounds m) as [Bl Bu].
  replace (Zpos (digits2_pos m) + k - 1) with (Zpos (digits2_pos m) - 1 + k) by lia.
  rewrite !Z.pow_add_r by lia.
  assert (0 < 2 ^ k) by (apply Z.pow_pos_nonneg; lia).
  split; nia.
Qed.

(** Two integers with the same scaled value have the same magnitude. *)
Lemma same_value_same_magnitude (a b : positive) (x y : Z) :
  0 <= x -> 0 <= y ->
  Zpos a * 2 ^ x = Zpos b * 2 ^ y ->
  Zpos (digits2_pos a) + x = Zpos (digits2_pos b) + y.
Proof.
  intros Hx Hy E.
  assert (Pa : 0 < Zpos a * 2 ^ x) by (apply Z.mul_pos_pos; [lia | apply Z.pow_pos_nonneg; lia]).
  destruct (Zpos a * 2 ^ x) as [|v|v] eqn:Ev; try lia.
  rewrite <- (digits2_shift a x v Hx (eq_sym Ev)).
  now rewrite <- (digits2_shift b y v Hy E).
Qed.

(** [shl_align] shifts the mantissa left to reach a smaller exponent. *)
Lemma shl_align_down (m : positive) (e e' : Z) :
  e' <= e ->
  Zpos (fst (shl_align m e e')) = Zpos m * 2 ^ (e - e') /\
  snd (shl_align m e e') = e'.
Proof.
  intros H. unfold shl_align. destruct (e' - e) as [|d|d] eqn:E; try lia.
  - replace (e - e') with 0 by lia. cbn [fst snd]. split; lia.
  - cbn [fst snd]. split; [|reflexivity].
    replace (e - e') with (Zpos d) by lia.
    change (Pos.iter xO m d) with (shift_pos d m).
    rewrite shift_pos_correct, Zpower_pos_nat, Zpower_nat_Z, positive_nat_Z. lia.
Qed.

Lemma shl_align_up (m : positive) (e e' : Z) :
  e <= e' -> shl_align m e e' = (m, e).
Proof. intros H. unfold shl_align. destruct (e' - e) eqn:E; try lia; reflexivity. Qed.

(** What validity says about a finite number. *)
Lemma bounded_spec (m : positive) (e : Z) :
  bounded prec emax m e = true ->
  e = fexp prec emax (Zpos (digits2_pos m) + e) /\
  emin <= e <= emax - prec /\
  Zpos (digits2_pos m) <= prec /\
  (emin < e -> Zpos (digits2_pos m) = prec).
Proof.
  unfold bounded, canonical_mantissa. rewrite andb_true_iff, Z.eqb_eq, Z.leb_le.
  unfold fexp, emin, SpecFloat.emin, prec, emax. lia.
Qed.

Lemma iter_pos_nat {A} (f : A -> A) (n : positive) (x : A) :
  iter_pos f n x = Nat.iter (Pos.to_nat n) f x.
Proof.
  revert x. induction n as [n IH|n IH|]; intros x; cbn [iter_pos].
  - rewrite !IH, Pos2Nat.inj_xI, <- Nat.iter_add, <- Nat.iter_succ_r.
    f_equal. lia.
  - rewrite !IH, Pos2Nat.inj_xO, <- Nat.iter_add. f_equal. lia.
  - reflexivity.
Qed.

(** Shifting right a mantissa whose low bits are zero loses nothing. *)
Lemma iter_shr_1_exact (k : nat) (m q : positive) :
  Zpos q = Zpos m * 2 ^ Z.of_nat k ->
  Nat.iter k shr_1 {| shr_m := Zpos q; shr_r := false; shr_s := false |} =
  {| shr_m := Zpos m; shr_r := false; shr_s := false |}.
Proof.
  revert q. induction k as [|k IH]; intros q E.
  - change (2 ^ Z.of_nat 0) with 1 in E. rewrite Z.mul_1_r in E.
    injection E as ->. reflexivity.
  - rewrite Nat2Z.inj_succ, Z.pow_succ_r in E by lia.
    rewrite Nat.iter_succ_r.
    assert (P : 0 < Zpos m * 2 ^ Z.of_nat k)
      by (apply Z.mul_pos_pos; [lia | apply Z.pow_pos_nonneg; lia]).
    destruct q as [q|q|].
    + exfalso. change (Zpos q~1) with (2 * Zpos q + 1) in E.
      revert E P. generalize (2 ^ Z.of_nat k). lia.
    + cbn [shr_1 orb]. apply IH.
      change (Zpos q~0) with (2 * Zpos q) in E.
      revert E P. generalize (2 ^ Z.of_nat k). lia.
    + exfalso. revert E P. generalize (2 ^ Z.of_nat k). lia.
Qed.

Lemma shr_exact (m mD : positive) (e eD : Z) :
  e <= eD -> Zpos m = Zpos mD * 2 ^ (eD - e) ->
  shr {| shr_m := Zpos m; shr_r := false; shr_s := false |} e (eD - e) =
  ({| shr_m := Zpos mD; shr_r := false; shr_s := false |}, eD).
Proof.
  intros H E. unfold shr. destruct (eD - e) as [|p|p] eqn:Ed; try lia.
  - change (2 ^ 0) with 1 in E. rewrite Z.mul_1_r in E. injection E as ->.
    f_equal. lia.
  - rewrite iter_pos_nat, (iter_shr_1_exact _ mD).
    + f_equal. lia.
    + now rewrite positive_nat_Z.
Qed.

(** Rounding an integer that is already a binary64 number returns it. *)
Lemma binary_round_aux_exact (s : bool) (m mD : positive) (e eD : Z) :
  bounded prec emax mD eD = true ->
  e <= eD -> Zpos m = Zpos mD * 2 ^ (eD - e) ->
  binary_round_aux prec emax s (Zpos m) e loc_Exact = S754_finite s mD eD.
Proof.
  intros Hb He E. destruct (bounded_spec _ _ Hb) as (Hc & Hr & _).
  pose proof (digits2_shift mD (eD - e) m ltac:(lia) E) as Hd.
  unfold binary_round_aux, shr_fexp. cbn [Zdigits2 shr_record_of_loc].
  replace (Zpos (digits2_pos m) + e) with (Zpos (digits2_pos mD) + eD) by lia.
  rewrite <- Hc, (shr_exact m mD e eD He E).
  cbn [loc_of_shr_record shr_m round_nearest_even Zdigits2 shr_record_of_loc].
  rewrite <- Hc, Z.sub_diag. cbn [shr shr_m].
  replace (eD <=? emax - prec) with true by (symmetry; apply Z.leb_le; lia).
  reflexivity.
Qed.

Lemma binary_round_exact (s : bool) (mz mD : positive) (ez eD : Z) :
  bounded prec emax mD eD = true ->
  emin <= ez ->
  Zpos mz * 2 ^ (ez - emin) = Zpos mD * 2 ^ (eD - emin) ->
  binary_round prec emax s mz ez = S754_finite s mD eD.
Proof.
  intros Hb Hz E. destruct (bounded_spec _ _ Hb) as (Hc & Hr & _).
  pose proof (same_value_same_magnitude mz mD (ez - emin) (eD - emin)
                ltac:(lia) ltac:(lia) E) as Hm.
  unfold binary_round.
  replace (Zpos (digits2_pos mz) + ez) with (Zpos (digits2_pos mD) + eD) by lia.
  rewrite <- Hc.
  assert (P : 0 < 2 ^ (ez - emin)) by (apply Z.pow_pos_nonneg; lia).
  destruct (Z.le_gt_cases ez eD) as [Hle|Hgt].
  - rewrite shl_align_up by lia. apply binary_round_aux_exact; trivial.
    replace (eD - emin) with ((eD - ez) + (ez - emin)) in E by lia.
    rewrite Z.pow_add_r in E by lia. nia.
  - destruct (shl_align_down mz ez eD ltac:(lia)) as [Hf Hs].
    destruct (shl_align mz ez eD) as [m' e']. cbn [fst snd] in Hf, Hs. subst e'.
    apply binary_round_aux_exact; trivial; [lia|].
    rewrite Z.sub_diag. change (2 ^ 0) with 1. rewrite Z.mul_1_r, Hf.
    replace (ez - emin) with ((ez - eD) + (eD - emin)) in E by lia.
    rewrite Z.pow_add_r in E by lia.
    assert (0 < 2 ^ (eD - emin)) by (apply Z.pow_pos_nonneg; lia). nia.
Qed.

Lemma pow2_pos (k : Z) : 0 <= k -> 0 < 2 ^ k.
Proof. intros. apply Z.pow_pos_nonneg; lia. Qed.

(** A valid mantissa and exponent are determined by the value. *)
Lemma bounded_unique (m m' : positive) (e e' : Z) :
  bounded prec emax m e = true -> bounded prec emax m' e' = true ->
  Zpos m * 2 ^ (e - emin) = Zpos m' * 2 ^ (e' - emin) ->
  m = m' /\ e = e'.
Proof.
  intros Hb Hb' E.
  destruct (bounded_spec _ _ Hb) as (Hc & Hr & _).
  destruct (bounded_spec _ _ Hb') as (Hc' & Hr' & _).
  pose proof (same_value_same_magnitude m m' (e - emin) (e' - emin)
                ltac:(lia) ltac:(lia) E) as Hm.
  assert (e = e').
  { rewrite Hc, Hc'. f_equal. lia. }
  subst e'. split; [|reflexivity].
  pose proof (pow2_pos (e - emin) ltac:(lia)).
  assert (Zpos m = Zpos m') by nia. congruence.
Qed.

(** With a smaller exponent comes a smaller value. *)
Lemma exponent_lt_value_le (m1 m2 : positive) (e1 e2 : Z) :
  bounded prec emax m1 e1 = true -> bounded prec emax m2 e2 = true ->
  e1 < e2 -> Zpos m1 * 2 ^ (e1 - emin) <= Zpos m2 * 2 ^ (e2 - emin).
Proof.
  intros Hb1 Hb2 H.
  destruct (bounded_spec _ _ Hb1) as (_ & Hr1 & Hd1 & _).
  destruct (bounded_spec _ _ Hb2) as (_ & Hr2 & _ & Hd2).
  specialize (Hd2 ltac:(lia)).
  pose proof (digits2_bounds m1) as [_ U1].
  pose proof (digits2_bounds m2) as [L2 _]. rewrite Hd2 in L2.
  assert (U1' : Zpos m1 < 2 ^ prec).
  { eapply Z.lt_le_trans; [exact U1|]. apply Z.pow_le_mono_r; lia. }
  replace (e2 - emin) with ((e2 - e1 - 1) + 1 + (e1 - emin)) by lia.
  rewrite !Z.pow_add_r by lia. change (2 ^ 1) with 2.
  pose proof (pow2_pos (e1 - emin) ltac:(lia)).
  pose proof (pow2_pos (e2 - e1 - 1) ltac:(lia)).
  assert (E : 2 ^ prec = 2 * 2 ^ (prec - 1)) by reflexivity.
  rewrite E in U1'. clear E U1.
  revert L2 U1' H0 H1.
  generalize (2 ^ (prec - 1)) (2 ^ (e1 - emin)) (2 ^ (e2 - e1 - 1)).
  intros B P Q L2 U1 HP HQ.
  assert (Zpos m1 * P <= 2 * Zpos m2 * P) by nia.
  assert (2 * Zpos m2 * P <= 2 * Zpos m2 * P * Q) by nia.
  lia.
Qed.

(** The order of two numbers is the order of their values. *)
Lemma leb_ulps (a b : float) :
  is_number a = true -> is_number b = true ->
  leb b a = true -> ulps b <= ulps a.
Proof.
  unfold is_number, leb, SFleb. rewrite !andb_true_iff. intros [Va Fa] [Vb Fb].
  destruct a as [sa|sa| |sa ma ea], b as [sb|sb| |sb mb eb]; try discriminate;
    cbn [SFcompare ulps valid valid_binary] in *.
  - destruct sb; [|discriminate]. intros _. cbn [cond_Zopp].
    pose proof (pow2_pos (eb - emin)
                  ltac:(destruct (bounded_spec _ _ Vb) as (_ & ? & _); lia)). nia.
  - destruct sa; [discriminate|]. intros _. cbn [cond_Zopp].
    pose proof (pow2_pos (ea - emin)
                  ltac:(destruct (bounded_spec _ _ Va) as (_ & ? & _); lia)). nia.
  - destruct (bounded_spec _ _ Va) as (_ & Ra & _).
    destruct (bounded_spec _ _ Vb) as (_ & Rb & _).
    pose proof (pow2_pos (ea - emin) ltac:(lia)).
    pose proof (pow2_pos (eb - emin) ltac:(lia)).
    destruct sb, sa; cbn [cond_Zopp]; try discriminate.
    + destruct (Z.compare_spec eb ea) as [->|Hlt|Hgt]; try discriminate.
      * change (Pos.compare_cont Eq mb ma) with (Pos.compare mb ma).
        destruct (Pos.compare_spec mb ma); cbn [CompOpp]; try discriminate; intros _; nia.
      * intros _. pose proof (exponent_lt_value_le ma mb ea eb Va Vb ltac:(lia)). lia.
    + intros _. nia.
    + destruct (Z.compare_spec eb ea) as [->|Hlt|Hgt]; try discriminate.
      * change (Pos.compare_cont Eq mb ma) with (Pos.compare mb ma).
        destruct (Pos.compare_spec mb ma); try discriminate; intros _; nia.
      * intros _. apply (exponent_lt_value_le mb ma eb ea Vb Va Hlt).
Qed.

(** The integer that [sub] rounds: the difference of the two mantissas
    brought to the smaller exponent, and its value. *)
Lemma aligned_difference (sa sb : bool) (ma mb : positive) (ea eb : Z) :
  emin <= ea -> emin <= eb ->
  let ez := Z.min ea eb in
  (cond_Zopp sa (Zpos (fst (shl_align ma ea ez)))
   - cond_Zopp sb (Zpos (fst (shl_align mb eb ez)))) * 2 ^ (ez - emin)
  = ulps (S754_finite sa ma ea) - ulps (S754_finite sb mb eb).
Proof.
  intros Ha Hb ez.
  destruct (shl_align_down ma ea ez ltac:(lia)) as [-> _].
  destruct (shl_align_down mb eb ez ltac:(lia)) as [-> _].
  cbn [ulps].
  replace (ea - emin) with ((ea - ez) + (ez - emin)) by lia.
  replace (eb - emin) with ((eb - ez) + (ez - emin)) by lia.
  rewrite !Z.pow_add_r by lia.
  destruct sa, sb; cbn [cond_Zopp]; ring.
Qed.

(** ** Exact differences *)

Lemma ulps_finite_pos (m : positive) (e : Z) :
  emin <= e -> 0 < Zpos m * 2 ^ (e - emin).
Proof. intros. pose proof (pow2_pos (e - emin) ltac:(lia)). nia. Qed.

(** When the difference of two numbers is itself a binary64 number,
    subtraction returns it: nothing is rounded. *)
Theorem sub_exact (a b d : float) :
  is_number a = true -> is_number b = true -> is_number d = true ->
  signbit d = false ->
  a <> S754_zero true ->
  ulps a = ulps b + ulps d ->
  sub a b = d.
Proof.
  unfold is_number. rewrite !andb_true_iff. intros [Va Fa] [Vb Fb] [Vd Fd] Sd Na E.
  assert (Dn : 0 <= ulps d).
  { destruct d as [sd|sd| |sd md ed]; cbn [ulps]; try lia.
    cbn [signbit] in Sd. subst sd. cbn [cond_Zopp valid valid_binary] in *.
    destruct (bounded_spec _ _ Vd) as (_ & R & _).
    pose proof (ulps_finite_pos md ed ltac:(lia)). lia. }
  assert (Dz : ulps d = 0 -> d = S754_zero false).
  { destruct d as [sd|sd| |sd md ed]; try discriminate Fd;
      cbn [signbit] in Sd; subst sd; [reflexivity|].
    cbn [ulps cond_Zopp valid valid_binary] in *. intros H.
    destruct (bounded_spec _ _ Vd) as (_ & R & _).
    pose proof (ulps_finite_pos md ed ltac:(lia)). lia. }
  assert (Dp : forall m e, bounded prec emax m e = true ->
               ulps d = Zpos m * 2 ^ (e - emin) -> d = S754_finite false m e).
  { intros m e Hb H. destruct (bounded_spec _ _ Hb) as (_ & R & _).
    pose proof (ulps_finite_pos m e ltac:(lia)).
    destruct d as [sd|sd| |sd md ed]; try discriminate Fd;
      cbn [signbit] in Sd; subst sd; cbn [ulps cond_Zopp valid valid_binary] in *.
    - lia.
    - destruct (bounded_unique md m ed e Vd Hb H) as [-> ->]. reflexivity. }
  destruct a as [sa|sa| |sa ma ea], b as [sb|sb| |sb mb eb]; try discriminate;
    cbn [valid valid_binary] in Va, Vb; unfold sub; cbn [SFsub].
  - (* zero - zero *)
    cbn [ulps] in E. rewrite (Dz ltac:(lia)).
    destruct sa, sb; try reflexivity. now elim Na.
  - (* zero - finite *)
    cbn [ulps] in E. destruct (bounded_spec _ _ Vb) as (_ & R & _).
    pose proof (ulps_finite_pos mb eb ltac:(lia)).
    destruct sb; cbn [cond_Zopp negb] in *; [|lia].
    symmetry. apply Dp; trivial. lia.
  - (* finite - zero *)
    cbn [ulps] in E. destruct (bounded_spec _ _ Va) as (_ & R & _).
    pose proof (ulps_finite_pos ma ea ltac:(lia)).
    destruct sa; cbn [cond_Zopp] in *; [lia|].
    symmetry. apply Dp; trivial. lia.
  - (* finite - finite *)
    destruct (bounded_spec _ _ Va) as (_ & Ra & _).
    destruct (bounded_spec _ _ Vb) as (_ & Rb & _).
    pose proof (aligned_difference sa sb ma mb ea eb ltac:(lia) ltac:(lia)) as A.
    cbv zeta in A. rewrite E in A.
    set (z := cond_Zopp sa _ - cond_Zopp sb _) in *.
    replace (ulps (S754_finite sb mb eb) + ulps d - ulps (S754_finite sb mb eb))
      with (ulps d) in A by lia.
    pose proof (pow2_pos (Z.min ea eb - emin) ltac:(lia)) as P.
    destruct z as [|mz|mz]; cbn [binary_normalize].
    + symmetry. apply Dz. lia.
    + destruct (Z.eq_dec (ulps d) 0) as [Hz|Hz]; [nia|].
      destruct d as [sd|sd| |sd md ed]; try discriminate Fd;
        cbn [signbit] in Sd; subst sd; [now elim Hz|].
      cbn [ulps cond_Zopp valid valid_binary] in A, Vd.
      apply binary_round_exact; trivial. lia.
    + nia.
Qed.

(** ** Sign of a difference *)

Lemma shr_1_nonneg (mrs : shr_record) : 0 <= shr_m mrs -> 0 <= shr_m (shr_1 mrs).
Proof.
  destruct mrs as [m r s]. cbn [shr_m]. intros H.
  destruct m as [|[p|p|]|p]; cbn [shr_1 shr_m]; lia.
Qed.

Lemma shr_nonneg (mrs : shr_record) (e n : Z) :
  0 <= shr_m mrs -> 0 <= shr_m (fst (shr mrs e n)).
Proof.
  intros H. unfold shr. destruct n as [|p|p]; cbn [fst]; trivial.
  rewrite iter_pos_nat. induction (Pos.to_nat p) as [|k IH]; cbn [Nat.iter]; trivial.
  now apply shr_1_nonneg.
Qed.

Lemma shr_fexp_nonneg (m e : Z) (l : location) :
  0 <= m -> 0 <= shr_m (fst (shr_fexp prec emax m e l)).
Proof.
  intros H. unfold shr_fexp. apply shr_nonneg.
  destruct l as [|[]]; cbn [shr_record_of_loc shr_m]; exact H.
Qed.

(** Rounding keeps the sign it is given: the result is a zero, a finite
    number or an infinity of that sign. *)
Lemma binary_round_aux_sign (s : bool) (m e : Z) (l : location) :
  0 <= m ->
  let r := binary_round_aux prec emax s m e l in
  r <> S754_nan /\ signbit r = s.
Proof.
  intros H. unfold binary_round_aux.
  pose proof (shr_fexp_nonneg m e l H) as H1.
  destruct (shr_fexp prec emax m e l) as [mrs' e']. cbn [fst] in H1.
  assert (H2 : 0 <= round_nearest_even (shr_m mrs') (loc_of_shr_record mrs')).
  { unfold round_nearest_even.
    destruct (loc_of_shr_record mrs') as [|[]]; try destruct (Z.even _); lia. }
  pose proof (shr_fexp_nonneg _ e' loc_Exact H2) as H3.
  destruct (shr_fexp prec emax _ e' loc_Exact) as [mrs'' e'']. cbn [fst] in H3.
  destruct (shr_m mrs'') as [|p|p]; try lia.
  - split; [discriminate | reflexivity].
  - destruct (e'' <=? emax - prec); split; (discriminate || reflexivity).
Qed.

Lemma binary_normalize_sign (z e : Z) :
  0 <= z ->
  let r := binary_normalize prec emax z e false in
  r <> S754_nan /\ signbit r = false.
Proof.
  intros H. destruct z as [|m|m]; try lia; cbn [binary_normalize].
  - split; [discriminate | reflexivity].
  - unfold binary_round. destruct (shl_align m e _) as [mz ez].
    apply binary_round_aux_sign. lia.
Qed.

Lemma nonneg_of_sign (r : float) :
  r <> S754_nan -> signbit r = false -> leb (S754_zero false) r = true.
Proof.
  intros Hn Hs. destruct r as [s|s| |s m e]; cbn [signbit] in Hs; try subst s;
    try reflexivity. now elim Hn.
Qed.

(** A later reading minus an earlier one is not negative; its sign bit is
    set in one case only, [-0.0 - 0.0]. *)
Theorem sub_nonneg (a b : float) :
  is_number a = true -> is_number b = true ->
  leb b a = true ->
  leb (S754_zero false) (sub a b) = true /\
  (a <> S754_zero true -> signbit (sub a b) = false).
Proof.
  intros Ha Hb H. pose proof (leb_ulps a b Ha Hb H) as U.
  unfold is_number in Ha, Hb. rewrite !andb_true_iff in Ha, Hb.
  destruct Ha as [Va Fa], Hb as [Vb Fb].
  destruct a as [sa|sa| |sa ma ea], b as [sb|sb| |sb mb eb]; try discriminate;
    cbn [valid valid_binary] in Va, Vb; unfold sub; cbn [SFsub].
  - destruct sa, sb; (split; [reflexivity|]); intros N; try reflexivity; now elim N.
  - destruct sb; [split; reflexivity | discriminate].
  - destruct sa; [discriminate | split; reflexivity].
  - destruct (bounded_spec _ _ Va) as (_ & Ra & _).
    destruct (bounded_spec _ _ Vb) as (_ & Rb & _).
    pose proof (aligned_difference sa sb ma mb ea eb ltac:(lia) ltac:(lia)) as A.
    cbv zeta in A.
    pose proof (pow2_pos (Z.min ea eb - emin) ltac:(lia)) as P.
    match goal with |- context [binary_normalize _ _ ?z ?e false] =>
      destruct (binary_normalize_sign z e ltac:(nia)) as [Hn Hs] end.
    split; [now apply nonneg_of_sign | intros _; exact Hs].
Qed.

(** ** Rounding to three decimals *)

Lemma div_half_even_nearest (num den : Z) :
  0 < den ->
  let q := div_half_even num den in
  let gap := Z.abs (num - q * den) in
  2 * gap <= den /\ (2 * gap = den -> Z.even q = true).
Proof.
  intros Hd. unfold div_half_even.
  pose proof (Z.div_mod num den ltac:(lia)) as E.
  pose proof (Z.mod_pos_bound num den Hd) as B.
  set (q0 := num / den) in *. set (r := num mod den) in *.
  destruct (Z.compare_spec (2 * r) den) as [Heq|Hlt|Hgt]; cbv zeta.
  - destruct (Z.even q0) eqn:Ev.
    + split; [nia | trivial].
    + split; [nia | intros _].
      rewrite Z.even_add, Ev. reflexivity.
  - split; [nia | intros H; exfalso; nia].
  - split; [nia | intros H; exfalso; nia].
Qed.

Lemma div_half_even_nonneg (num den : Z) :
  0 <= num -> 0 < den -> 0 <= div_half_even num den.
Proof.
  intros Hn Hd. unfold div_half_even.
  pose proof (Z.div_pos num den Hn Hd).
  destruct (_ ?= _); try destruct (Z.even _); lia.
Qed.

(** The digits computed for [.3f] are those of the nearest thousandth. *)
Lemma scaled_digits_nearest (s : bool) (m : positive) (e : Z) :
  bounded prec emax m e = true ->
  nearest_thousandth (S754_finite s m e) (scaled_digits 3 m e) /\
  0 <= scaled_digits 3 m e.
Proof.
  intros Hb. destruct (bounded_spec _ _ Hb) as (_ & R & _).
  assert (Hemin : emin = -1074) by reflexivity.
  unfold scaled_digits.
  set (num := Zpos m * 10 ^ Z.of_nat 3 * 2 ^ Z.max e 0).
  set (den := 2 ^ Z.max (- e) 0).
  assert (Hden : 0 < den) by (apply pow2_pos; lia).
  assert (Hnum : 0 <= num).
  { unfold num. pose proof (pow2_pos (Z.max e 0) ltac:(lia)).
    change (10 ^ Z.of_nat 3) with 1000. nia. }
  split; [|now apply div_half_even_nonneg].
  pose proof (div_half_even_nearest num den Hden) as N. cbv zeta in N.
  set (q := div_half_even num den) in *.
  set (c := 2 ^ (Z.min e 0 - emin)).
  assert (Hc : 0 < c) by (apply pow2_pos; lia).
  assert (E1 : 1000 * Z.abs (ulps (S754_finite s m e)) = num * c).
  { cbn [ulps]. replace (Z.abs (cond_Zopp s (Zpos m * 2 ^ (e - emin))))
      with (Zpos m * 2 ^ (e - emin))
      by (pose proof (ulps_finite_pos m e ltac:(lia)); destruct s; cbn [cond_Zopp]; lia).
    unfold num, c. change (10 ^ Z.of_nat 3) with 1000.
    replace (e - emin) with (Z.max e 0 + (Z.min e 0 - emin)) by lia.
    rewrite Z.pow_add_r by lia. ring. }
  assert (E2 : second = den * c).
  { unfold second, den, c.
    replace (- emin) with (Z.max (- e) 0 + (Z.min e 0 - emin)) at 1 by lia.
    apply Z.pow_add_r; lia. }
  unfold nearest_thousandth. cbv zeta. rewrite E1, E2.
  replace (num * c - q * (den * c)) with ((num - q * den) * c) by ring.
  rewrite Z.abs_mul, (Z.abs_eq c) by lia.
  destruct N as [N1 N2]. split; [nia|].
  intros H. apply N2. nia.
Qed.

(** ** What the printed digits denote *)

Lemma fold_digits_uint (d : uint) (acc : Z) :
  fold_left read_digit (list_ascii_of_string (NilEmpty.string_of_uint d)) acc
  = uint_acc d acc.
Proof.
  revert acc. induction d; intros acc;
    cbn [NilEmpty.string_of_uint list_ascii_of_string fold_left uint_acc];
    [reflexivity|..]; rewrite IHd; reflexivity.
Qed.

Lemma decimal_value_of_N (n : N) :
  decimal_value (NilZero.string_of_uint (N.to_uint n)) = Z.of_N n.
Proof.
  unfold decimal_value. destruct n as [|p]; [reflexivity|].
  cbn [N.to_uint]. pose proof (to_uint_head p) as H.
  replace (NilZero.string_of_uint (Pos.to_uint p))
    with (NilEmpty.string_of_uint (Pos.to_uint p))
    by (now destruct (Pos.to_uint p)).
  rewrite fold_digits_uint. apply to_uint_value.
Qed.

Lemma list_ascii_app (a b : string) :
  list_ascii_of_string (a ++ b) = (list_ascii_of_string a ++ list_ascii_of_string b)%list.
Proof. induction a as [|c a IH]; cbn [append list_ascii_of_string List.app]; congruence. Qed.

Lemma decimal_value_low_digits (k : nat) (q : Z) :
  0 <= q -> decimal_value (low_digits k q) = q mod 10 ^ Z.of_nat k.
Proof.
  unfold decimal_value.
  revert q. induction k as [|k IH]; intros q Hq.
  - cbn [low_digits list_ascii_of_string fold_left]. change (10 ^ Z.of_nat 0) with 1.
    now rewrite Z.mod_1_r.
  - cbn [low_digits]. rewrite list_ascii_app, fold_left_app, IH
      by (apply Z.div_pos; lia).
    cbn [list_ascii_of_string fold_left]. unfold read_digit, digit_char.
    pose proof (Z.mod_pos_bound q 10 ltac:(lia)).
    rewrite N_ascii_embedding by lia.
    rewrite Z2N.id by lia.
    rewrite Nat2Z.inj_succ, Z.pow_succ_r by lia.
    rewrite (Z.rem_mul_r q 10 (10 ^ Z.of_nat k)) by
      (try lia; apply Z.pow_pos_nonneg; lia).
    lia.
Qed.

(** The text of [q] thousandths reads back as [q / 1000] and
    [q mod 1000]. *)
Lemma fixed_digits_value (q : Z) :
  0 <= q ->
  exists whole frac,
    fixed_digits 3 q = whole ++ "." ++ frac /\
    all_digits whole = true /\ all_digits frac = true /\
    String.length frac = 3%nat /\
    decimal_value whole = q / 1000 /\ decimal_value frac = q mod 1000.
Proof.
  intros Hq. unfold fixed_digits. do 2 eexists. split; [reflexivity|].
  split.
  { destruct (whole_part_digits (N.to_uint (Z.to_N (q / 10 ^ Z.of_nat 3))))
      as (c & r & E & _ & A). now rewrite E. }
  split; [apply low_digits_all_digits|].
  split; [apply low_digits_length|]. split.
  - rewrite decimal_value_of_N, Z2N.id; [reflexivity|].
    apply Z.div_pos; [lia | reflexivity].
  - now rewrite decimal_value_low_digits.
Qed.

End FloatFacts.
Import FloatFacts.

(* ================================================================== *)
(** * Properties of the timer *)



(** A [with] statement that completes normally had a block that completed
    normally and a width the format mini-language accepts. *)
Lemma normal_completion (label : string) (column_width : Z) (body : block) (w : world) :
  fst (fst (with_timed label column_width body w)) = Return tt ->
  fst (block_outcome label column_width body w) = Return tt /\
  valid_width column_width = true.
Proof.
  intros H. destruct (block_outcome label column_width body w) as [[[]|e] w2] eqn:Hb.
  - split; [reflexivity|].
    apply (with_timed_result_return _ _ _ _ _ _ Hb) in H.
    now destruct (valid_width column_width).
  - now rewrite (with_timed_raise _ _ _ _ _ _ Hb) in H.
Qed.

(** The line of a [with] statement that completes normally. *)
Lemma timer_lines_normal
    (label : string) (column_width : Z) (body : block) (w w2 : world) :
  fst (fst (with_timed label column_width body w)) = Return tt ->
  block_outcome label column_width body w = (Return tt, w2) ->
  timer_lines label column_width body w =
    [ljust label column_width
     ++ format_fixed 3 (sub (next_reading w2) (next_reading w)) ++ "s"].
Proof.
  intros H Hb. rewrite (timer_lines_return _ _ _ _ _ _ Hb).
  apply (with_timed_result_return _ _ _ _ _ _ Hb) in H. now rewrite H.
Qed.

(** What a [with] statement that completes normally leaves behind. *)
Lemma with_timed_normal
    (label : string) (column_width : Z) (body : block) (w w2 : world) :
  fst (fst (with_timed label column_width body w)) = Return tt ->
  block_outcome label column_width body w = (Return tt, w2) ->
  with_timed label column_width body w =
    (Return tt, finished label column_width (next_reading w) (next_reading w2),
     print (ljust label column_width
            ++ format_fixed 3 (sub (next_reading w2) (next_reading w)) ++ "s")
           (snd (perf_counter w2))).
Proof.
  intros H Hb. apply (with_timed_result_return _ _ _ _ _ _ Hb) in H.
  apply andb_true_iff in H as [Hw Hf].
  rewrite (with_timed_return _ _ _ _ _ _ Hb), format_label.
  fold (valid_width column_width). fold (field_fits label column_width).
  now rewrite Hw, Hf.
Qed.

(** C1, as the code has it.  Entering the scoped use reads the clock and
    writes nothing: the block starts on the standard output the statement
    found.  A block that raises ends the scoped use at once: its error
    propagates, the clock is not read again and the stop timestamp stays
    unset.  A scoped use that completes normally had a block that
    completed normally, captured the stop timestamp and added exactly one
    line after what the block wrote.  A scoped use that ends in an error,
    whether that of the block or one of building the line, added no
    line. *)
Theorem timer_lines_by_exit_path
    (label : string) (column_width : Z) (body : block) (w : world) :
  let r := fst (block_outcome label column_width body w) in
  let w2 := snd (block_outcome label column_width body w) in
  let res := fst (fst (with_timed label column_width body w)) in
  let gen := snd (fst (with_timed label column_width body w)) in
  let w3 := snd (with_timed label column_width body w) in
  let line := ljust label column_width
              ++ format_fixed 3 (sub (next_reading w2) (next_reading w)) ++ "s" in
  (stdout (snd (perf_counter w)) = stdout w /\
   block_outcome label column_width body w =
     bound body elapsed (suspended label column_width (next_reading w))
           (snd (perf_counter w))) /\
  (forall e, r = Raise e ->
     res = Raise e /\ w3 = w2 /\ stop (vars (gi_frame gen)) = None) /\
  (res = Return tt ->
     r = Return tt /\
     stop (vars (gi_frame gen)) = Some (next_reading w2) /\
     stdout w3 = List.app (stdout w2) [line] /\
     timer_lines label column_width body w = [line]) /\
  (forall e, res = Raise e ->
     stdout w3 = stdout w2 /\ timer_lines label column_width body w = []).
Proof.
  cbv zeta. split; [split; reflexivity|].
  destruct (block_outcome label column_width body w) as [[[]|e] w2] eqn:Hb; cbn [fst snd].
  - split; [discriminate|]. split.
    + intros H. rewrite (timer_lines_normal _ _ _ _ _ H Hb).
      rewrite (with_timed_normal _ _ _ _ _ H Hb). repeat split.
    + pose proof (timer_lines_return _ _ _ _ _ _ Hb) as L.
      rewrite (with_timed_return _ _ _ _ _ _ Hb), format_label.
      fold (valid_width column_width). fold (field_fits label column_width).
      destruct (valid_width column_width); cbn [andb] in L.
      * destruct (field_fits label column_width); [discriminate|].
        intros e' _. split; [reflexivity | exact L].
      * destruct (_ <? _); [|destruct (_ <? _)];
          (intros e' _; split; [reflexivity | exact L]).
  - rewrite (with_timed_raise _ _ _ _ _ _ Hb). cbn [fst snd].
    split; [intros e' [= <-]; repeat split|].
    split; [discriminate|].
    intros e' _. split; [reflexivity|].
    now apply timer_lines_raise with (e := e) (w2 := w2).
Qed.

Lemma timer_lines_by_exit_path_witness :
  fst (fst (with_timed "load" 40 block_pass sample_world)) = Return tt /\
  stdout (snd (with_timed "load" 40 block_pass sample_world)) =
    ["load                                    0.250s"] /\
  timer_lines "load" 40 block_pass sample_world =
    ["load                                    0.250s"].
Proof.
  split; [reflexivity|].
  destruct (timer_lines_by_exit_path "load" 40 block_pass sample_world)
    as (_ & _ & N & _).
  destruct (N eq_refl) as (_ & _ & S & L).
  split; [rewrite S | rewrite L]; reflexivity.
Defined.

(** C1 fails as stated: with a block that raises, the scoped use writes
    no line and captures no stop timestamp. *)
Lemma raising_block_writes_no_line :
  let '(res, gen, w') := with_timed "load" 40 (block_raise boom) sample_world in
  res = Raise boom /\ stdout w' = [] /\ ticks w' = 1%nat /\
  stop (vars (gi_frame gen)) = None /\
  timer_lines "load" 40 (block_raise boom) sample_world = [].
Proof. vm_compute. repeat split. Qed.




(** A width the format mini-language accepts is not yet a field that can
    be built: one of [PY_SSIZE_T_MAX] characters is refused with
    [MemoryError], and no line is printed. *)
Example widest_field_prints_nothing :
  valid_width FormatSpec.PY_SSIZE_T_MAX = true /\
  let '(res, _, w') :=
    with_timed "abc" FormatSpec.PY_SSIZE_T_MAX block_pass sample_world in
  res = Raise FormatSpec.memory_error /\ stdout w' = [].
Proof. vm_compute. repeat split. Qed.



(** C5: an error raised inside the block leaves the [with] statement as
    the very same exception object; it is neither swallowed nor replaced. *)
Theorem error_propagates_unchanged
    (label : string) (column_width : Z) (body : block) (w : world)
    (e : exn) (w2 : world) :
  block_outcome label column_width body w = (Raise e, w2) ->
  fst (fst (with_timed label column_width body w)) = Raise e.
Proof. intros Hb. now rewrite (with_timed_raise _ _ _ _ _ _ Hb). Qed.

Lemma error_propagates_unchanged_witness :
  block_outcome "load" 40 (block_raise boom) sample_world
    = (Raise boom, snd (perf_counter sample_world)) /\
  fst (fst (with_timed "load" 40 (block_raise boom) sample_world)) = Raise boom.
Proof.
  split; [reflexivity|].
  exact (error_propagates_unchanged "load" 40 (block_raise boom) sample_world
           boom _ eq_refl).
Defined.



(** C7: while the block runs the [stop] cell is still empty, so every call
    of the accessor raises [NameError]; the block cannot tell the accessor
    from a function that always raises it. *)
Theorem accessor_fails_inside_block
    (label : string) (column_width : Z) (body : block) (w : world) :
  let failure := name_error "cannot access free variable 'stop' where it is not associated with a value in enclosing scope" in
  (exists gen w1,
     enter next (timed label column_width) w = (Return elapsed, gen, w1) /\
     gi_state gen = GEN_SUSPENDED /\
     stop (vars (gi_frame gen)) = None /\
     elapsed (vars (gi_frame gen)) = Raise failure) /\
  block_outcome label column_width body w =
    body (fun _ => Raise failure) (snd (perf_counter w)) /\
  with_timed label column_width body w =
    with_timed label column_width (fun _ => body (fun _ => Raise failure)) w.
Proof.
  intros failure. split; [|split; reflexivity].
  do 2 eexists. rewrite enter_timed. repeat split.
Qed.

(** A block that calls the accessor: the [NameError] leaves the [with]
    statement and the timer prints nothing. *)
Example early_call :
  let '(res, _, w') := with_timed "load" 40 block_call sample_world in
  res = Raise (name_error "cannot access free variable 'stop' where it is not associated with a value in enclosing scope") /\
  stdout w' = [].
Proof. split; reflexivity. Qed.

(** C8: the block starts after [start] has been assigned from a reading of
    the clock. *)
Theorem start_set_before_block
    (label : string) (column_width : Z) (body : block) (w : world) :
  exists gen w1,
    enter next (timed label column_width) w = (Return elapsed, gen, w1) /\
    perf_counter w = (next_reading w, w1) /\
    start (vars (gi_frame gen)) = Some (next_reading w) /\
    with_timed label column_width body w =
      with_block next throw close elapsed gen (bound body) w1.
Proof. do 2 eexists. rewrite enter_timed. repeat split. Qed.



(** The text of a non-negative binary64 number under [.3f]: the digits of
    its nearest thousandth. *)
Lemma format_fixed_nearest (d : float) :
  is_number d = true -> signbit d = false ->
  exists q, nearest_thousandth d q /\ 0 <= q /\
            format_fixed 3 d = fixed_digits 3 q.
Proof.
  unfold is_number. rewrite andb_true_iff. intros [V F] S.
  destruct d as [s|s| |s m e]; try discriminate; cbn [signbit] in S; subst s.
  - assert (0 < second) by (vm_compute; reflexivity).
    exists 0. repeat split; try reflexivity; cbn [ulps]; lia.
  - destruct (scaled_digits_nearest false m e V) as [N P].
    exists (scaled_digits 3 m e). repeat split; trivial; apply N.
Qed.

(** C2: let the block complete normally, let the two clock readings be
    binary64 numbers (the stop reading not [-0.0], which no clock returns)
    and let the stop reading exceed the start reading by exactly the
    non-negative binary64 number [D].  Then the timer writes one line, and
    the elapsed value in it is [D] rounded to three decimals: its digits
    read [q / 1000] before the point and [q mod 1000] after it, where [q]
    thousandths is the nearest to [D] (ties to even). *)
Theorem elapsed_value_rounded
    (label : string) (column_width : Z) (body : block) (w : world) (D : float) :
  fst (fst (with_timed label column_width body w)) = Return tt ->
  let t0 := next_reading w in
  let t1 := next_reading (snd (block_outcome label column_width body w)) in
  is_number t0 = true -> is_number t1 = true -> t1 <> S754_zero true ->
  is_number D = true -> signbit D = false ->
  ulps t1 = ulps t0 + ulps D ->
  exists q whole frac,
    nearest_thousandth D q /\
    timer_lines label column_width body w =
      [ljust label column_width ++ (whole ++ "." ++ frac) ++ "s"] /\
    all_digits whole = true /\ all_digits frac = true /\
    String.length frac = 3%nat /\
    decimal_value whole = q / 1000 /\ decimal_value frac = q mod 1000.
Proof.
  intros H t0 t1 H0 H1 N1 HD SD E.
  destruct (normal_completion _ _ _ _ H) as [Hb Hw].
  destruct (block_outcome label column_width body w) as [[[]|e] w2] eqn:Hb'; [|discriminate].
  cbn [snd] in t1.
  rewrite (timer_lines_normal _ _ _ _ _ H Hb').
  fold t0 t1. rewrite (sub_exact t1 t0 D H1 H0 HD SD N1 E).
  destruct (format_fixed_nearest D HD SD) as (q & Nq & Pq & ->).
  destruct (fixed_digits_value q Pq) as (whole & frac & -> & Aw & Af & L & Vw & Vf).
  exists q, whole, frac. repeat split; trivial; apply Nq.
Qed.

Lemma elapsed_value_rounded_witness :
  fst (fst (with_timed "load" 40 block_pass sample_world)) = Return tt /\
  is_number one = true /\ is_number one_and_a_quarter = true /\
  one_and_a_quarter <> S754_zero true /\
  is_number a_quarter = true /\ signbit a_quarter = false /\
  ulps one_and_a_quarter = ulps one + ulps a_quarter /\
  exists q whole frac,
    nearest_thousandth a_quarter q /\
    timer_lines "load" 40 block_pass sample_world =
      [ljust "load" 40 ++ (whole ++ "." ++ frac) ++ "s"] /\
    all_digits whole = true /\ all_digits frac = true /\
    String.length frac = 3%nat /\
    decimal_value whole = q / 1000 /\ decimal_value frac = q mod 1000.
Proof.
  assert (U : ulps one_and_a_quarter = ulps one + ulps a_quarter) by (vm_compute; reflexivity).
  do 7 (split; [reflexivity || discriminate || exact U|]).
  exact (elapsed_value_rounded "load" 40 block_pass sample_world a_quarter
           eq_refl eq_refl eq_refl ltac:(discriminate) eq_refl eq_refl U).
Defined.

(** C10: when the block completes normally and the stop reading is not
    below the start reading, the elapsed value in the line is not
    negative; unless the stop reading is [-0.0], its text carries no minus
    sign. *)
Theorem elapsed_value_nonnegative
    (label : string) (column_width : Z) (body : block) (w : world) :
  fst (fst (with_timed label column_width body w)) = Return tt ->
  let t0 := next_reading w in
  let t1 := next_reading (snd (block_outcome label column_width body w)) in
  is_number t0 = true -> is_number t1 = true ->
  leb t0 t1 = true ->
  timer_lines label column_width body w =
    [ljust label column_width ++ format_fixed 3 (sub t1 t0) ++ "s"] /\
  leb (S754_zero false) (sub t1 t0) = true /\
  (t1 <> S754_zero true -> signbit (sub t1 t0) = false).
Proof.
  intros H t0 t1 H0 H1 L.
  destruct (normal_completion _ _ _ _ H) as [Hb Hw].
  destruct (block_outcome label column_width body w) as [[[]|e] w2] eqn:Hb'; [|discriminate].
  cbn [snd] in t1.
  rewrite (timer_lines_normal _ _ _ _ _ H Hb').
  split; [reflexivity|]. now apply sub_nonneg.
Qed.

Lemma elapsed_value_nonnegative_witness :
  fst (fst (with_timed "load" 40 block_pass sample_world)) = Return tt /\
  is_number one = true /\ is_number one_and_a_quarter = true /\
  leb one one_and_a_quarter = true /\
  timer_lines "load" 40 block_pass sample_world =
    [ljust "load" 40 ++ format_fixed 3 (sub one_and_a_quarter one) ++ "s"] /\
  leb (S754_zero false) (sub one_and_a_quarter one) = true /\
  (one_and_a_quarter <> S754_zero true -> signbit (sub one_and_a_quarter one) = false).
Proof.
  do 4 (split; [reflexivity|]).
  exact (elapsed_value_nonnegative "load" 40 block_pass sample_world
           eq_refl eq_refl eq_refl eq_refl).
Defined.

(** The restriction of C2 to durations that are binary64 numbers cannot be
    dropped.  When the exact difference of the readings is not one,
    [stop - start] rounds it first and [.3f] rounds the result again: here
    the exact difference lies above the tie 0.0625 and its nearest
    thousandth is 63, the difference computed is 0.0625 itself and the
    line shows 0.062. *)
Remark inexact_difference_is_rounded_twice :
  is_number early_reading = true /\ is_number late_reading = true /\
  2 * Z.abs (1000 * (ulps late_reading - ulps early_reading) - 63 * second) < second /\
  format_fixed 3 (sub late_reading early_reading) = "0.062".
Proof. vm_compute. repeat split. Qed.

(** The scenario of the specification: a block of a tenth of a second under
    the label [load] and the default width. *)
Example load_scenario :
  with_timed "load" default_width block_pass tenth_world =
  (Return tt, finished "load" 40 one one_point_one,
   {| clock := clock tenth_world; ticks := 2;
      stdout := ["load                                    0.100s"] |}).
Proof. reflexivity. Qed.

(* ================================================================== *)
(** * Further properties of the timer *)

(** X1: after a scoped use whose block raised, [stop] was never assigned:
    calling the accessor still raises [NameError]. *)
Theorem accessor_fails_after_error
    (label : string) (column_width : Z) (body : block) (w : world)
    (e : exn) (w2 : world) :
  block_outcome label column_width body w = (Raise e, w2) ->
  call_after (snd (fst (with_timed label column_width body w))) =
  Raise (name_error "cannot access free variable 'stop' where it is not associated with a value in enclosing scope").
Proof. intros Hb. now rewrite (with_timed_raise _ _ _ _ _ _ Hb). Qed.

Lemma accessor_fails_after_error_witness :
  block_outcome "load" 40 (block_raise boom) sample_world
    = (Raise boom, snd (perf_counter sample_world)) /\
  call_after (snd (fst (with_timed "load" 40 (block_raise boom) sample_world))) =
  Raise (name_error "cannot access free variable 'stop' where it is not associated with a value in enclosing scope").
Proof.
  split; [reflexivity|].
  exact (accessor_fails_after_error "load" 40 (block_raise boom) sample_world boom _ eq_refl).
Defined.

(** X2: a width outside [0 .. PY_SSIZE_T_MAX] goes unnoticed until the
    block has run.  The stop reading is then taken, the f-string raises
    [ValueError], nothing is printed, and the accessor called afterwards
    returns the elapsed value. *)
Theorem invalid_width_fails_at_exit
    (label : string) (column_width : Z) (body : block) (w : world)
    (u : unit) (w2 : world) :
  valid_width column_width = false ->
  block_outcome label column_width body w = (Return u, w2) ->
  exists m gen,
    with_timed label column_width body w =
      (Raise (FormatSpec.value_error m), gen, snd (perf_counter w2)) /\
    timer_lines label column_width body w = [] /\
    call_after gen = Return (sub (next_reading w2) (next_reading w)).
Proof.
  intros Hw Hb. rewrite (timer_lines_return _ _ _ _ _ _ Hb), Hw.
  rewrite (with_timed_return _ _ _ _ _ _ Hb), format_label.
  fold (valid_width column_width). rewrite Hw.
  destruct (_ <? _); [|destruct (_ <? _)]; do 2 eexists; repeat split.
Qed.

Lemma invalid_width_fails_at_exit_witness :
  valid_width (-1) = false /\
  block_outcome "load" (-1) block_pass sample_world
    = (Return tt, snd (perf_counter sample_world)) /\
  exists m gen,
    with_timed "load" (-1) block_pass sample_world =
      (Raise (FormatSpec.value_error m), gen,
       snd (perf_counter (snd (perf_counter sample_world)))) /\
    timer_lines "load" (-1) block_pass sample_world = [] /\
    call_after gen = Return (sub (next_reading (snd (perf_counter sample_world)))
                                 (next_reading sample_world)).
Proof.
  split; [reflexivity|]. split; [reflexivity|].
  exact (invalid_width_fails_at_exit "load" (-1) block_pass sample_world tt _
           eq_refl eq_refl).
Defined.

(** X3: the timer never touches what the block printed.  On every exit
    path standard output ends as the block left it followed by the lines
    of the timer, at most one; the clock is read once more after a block
    that returns and not at all after one that raises. *)
Theorem block_output_preserved
    (label : string) (column_width : Z) (body : block) (w : world) :
  let '(r, w2) := block_outcome label column_width body w in
  let '(_, _, w3) := with_timed label column_width body w in
  stdout w3 = List.app (stdout w2) (timer_lines label column_width body w) /\
  (List.length (timer_lines label column_width body w) <= 1)%nat /\
  clock w3 = clock w2 /\
  ticks w3 = match r with
             | Return _ => S (ticks w2)
             | Raise _ => ticks w2
             end.
Proof.
  destruct (block_outcome label column_width body w) as [[u|e] w2] eqn:Hb.
  - rewrite (timer_lines_return _ _ _ _ _ _ Hb).
    rewrite (with_timed_return _ _ _ _ _ _ Hb), format_label.
    fold (valid_width column_width). fold (field_fits label column_width).
    destruct (valid_width column_width); cbn [andb].
    + destruct (field_fits label column_width).
      * repeat split. cbn [List.length]. lia.
      * cbn [perf_counter snd stdout clock ticks].
        rewrite List.app_nil_r; repeat split; cbn [List.length]; lia.
    + destruct (_ <? _); [|destruct (_ <? _)]; cbn [perf_counter snd stdout clock ticks];
        rewrite List.app_nil_r; repeat split; cbn [List.length]; lia.
  - rewrite (timer_lines_raise _ _ _ _ _ _ Hb), (with_timed_raise _ _ _ _ _ _ Hb).
    rewrite List.app_nil_r. repeat split. cbn [List.length]. lia.
Qed.

(** A finite number minus itself is [+0.0]. *)
Lemma sub_self (x : float) : is_finite x = true -> sub x x = S754_zero false.
Proof.
  destruct x as [s|s| |s m e]; try discriminate; intros _; unfold sub; cbn [SFsub].
  - now destruct s.
  - now rewrite Z.sub_diag.
Qed.

(** X4: when the clock shows the same finite reading before and after the
    block, the line shows [0.000s]. *)
Theorem standing_clock_prints_zero
    (label : string) (column_width : Z) (body : block) (w : world) :
  fst (fst (with_timed label column_width body w)) = Return tt ->
  is_finite (next_reading w) = true ->
  next_reading (snd (block_outcome label column_width body w)) = next_reading w ->
  timer_lines label column_width body w = [ljust label column_width ++ "0.000s"].
Proof.
  intros H F E. destruct (normal_completion _ _ _ _ H) as [Hb Hw].
  destruct (block_outcome label column_width body w) as [[[]|e] w2] eqn:Hb'; [|discriminate].
  cbn [snd] in E.
  now rewrite (timer_lines_normal _ _ _ _ _ H Hb'), E, sub_self.
Qed.

Lemma standing_clock_prints_zero_witness :
  fst (fst (with_timed "load" 40 block_pass frozen_world)) = Return tt /\
  is_finite (next_reading frozen_world) = true /\
  next_reading (snd (block_outcome "load" 40 block_pass frozen_world))
    = next_reading frozen_world /\
  timer_lines "load" 40 block_pass frozen_world = [ljust "load" 40 ++ "0.000s"].
Proof.
  do 3 (split; [reflexivity|]).
  exact (standing_clock_prints_zero "load" 40 block_pass frozen_world
           eq_refl eq_refl eq_refl).
Defined.

Lemma ulps_nonneg (d : float) : signbit d = false -> 0 <= ulps d.
Proof.
  destruct d as [s|s| |s m e]; cbn [ulps signbit]; try lia.
  intros ->. cbn [cond_Zopp]. pose proof (Z.pow_nonneg 2 (e - emin) ltac:(lia)). nia.
Qed.

(** The only thousandth nearest to a value below half a thousandth is 0. *)
Lemma nearest_thousandth_small (d : float) (q : Z) :
  nearest_thousandth d q -> 0 <= q ->
  2000 * Z.abs (ulps d) < second -> q = 0.
Proof.
  unfold nearest_thousandth. cbv zeta. intros [N _] Hq Hs.
  assert (0 < second) by (vm_compute; reflexivity).
  destruct (Z.eq_dec q 0) as [|Hn]; trivial. exfalso.
  assert (1 <= q) by lia. nia.
Qed.

(** X5: a duration (a binary64 number, exactly the difference of the
    readings as in C2) below half a millisecond shows as [0.000s]. *)
Theorem below_half_millisecond_prints_zero
    (label : string) (column_width : Z) (body : block) (w : world) (D : float) :
  fst (fst (with_timed label column_width body w)) = Return tt ->
  let t0 := next_reading w in
  let t1 := next_reading (snd (block_outcome label column_width body w)) in
  is_number t0 = true -> is_number t1 = true -> t1 <> S754_zero true ->
  is_number D = true -> signbit D = false ->
  ulps t1 = ulps t0 + ulps D ->
  2000 * ulps D < second ->
  timer_lines label column_width body w = [ljust label column_width ++ "0.000s"].
Proof.
  intros H t0 t1 H0 H1 N1 HD SD E Small.
  destruct (normal_completion _ _ _ _ H) as [Hb Hw].
  destruct (block_outcome label column_width body w) as [[[]|e] w2] eqn:Hb'; [|discriminate].
  cbn [snd] in t1.
  rewrite (timer_lines_normal _ _ _ _ _ H Hb').
  fold t0 t1. rewrite (sub_exact t1 t0 D H1 H0 HD SD N1 E).
  destruct (format_fixed_nearest D HD SD) as (q & Nq & Pq & ->).
  rewrite (nearest_thousandth_small D q Nq Pq); [reflexivity|].
  rewrite Z.abs_eq by now apply ulps_nonneg. exact Small.
Qed.

Lemma below_half_millisecond_prints_zero_witness :
  fst (fst (with_timed "load" 40 block_pass brief_world)) = Return tt /\
  is_number one = true /\ is_number one_and_a_4096th = true /\
  one_and_a_4096th <> S754_zero true /\
  is_number a_4096th = true /\ signbit a_4096th = false /\
  ulps one_and_a_4096th = ulps one + ulps a_4096th /\
  2000 * ulps a_4096th < second /\
  timer_lines "load" 40 block_pass brief_world = [ljust "load" 40 ++ "0.000s"].
Proof.
  assert (U : ulps one_and_a_4096th = ulps one + ulps a_4096th) by (vm_compute; reflexivity).
  assert (S : 2000 * ulps a_4096th < second) by (vm_compute; reflexivity).
  do 8 (split; [reflexivity || discriminate || exact U || exact S|]).
  exact (below_half_millisecond_prints_zero "load" 40 block_pass brief_world a_4096th
           eq_refl eq_refl eq_refl ltac:(discriminate) eq_refl eq_refl U S).
Defined.

Lemma block_outcome_nested
    (outer inner : string) (wo wi : Z) (body : block) (w : world) :
  block_outcome outer wo (nested inner wi body) w =
  (fst (fst (with_timed inner wi body (snd (perf_counter w)))),
   snd (with_timed inner wi body (snd (perf_counter w)))).
Proof.
  rewrite block_outcome_eq. unfold bound, nested.
  now destruct (with_timed inner wi body _) as [[r g] w'].
Qed.

(** X6: nested timers.  When the outer scoped use completes normally, so
    did the inner one and the inner block; the inner line is printed
    first and the outer line after it; the inner value is taken from the
    two inner readings, the outer value from the reading before the inner
    start and the reading after the inner stop. *)
Theorem nested_timers_print_inner_first
    (outer inner : string) (wo wi : Z) (body : block) (w : world) :
  fst (fst (with_timed outer wo (nested inner wi body) w)) = Return tt ->
  let w2 := snd (block_outcome inner wi body (snd (perf_counter w))) in
  fst (block_outcome inner wi body (snd (perf_counter w))) = Return tt /\
  fst (fst (with_timed inner wi body (snd (perf_counter w)))) = Return tt /\
  exists gen w4,
    with_timed outer wo (nested inner wi body) w = (Return tt, gen, w4) /\
    stdout w4 =
      List.app (stdout w2)
        [ljust inner wi
           ++ format_fixed 3 (sub (next_reading w2) (next_reading (snd (perf_counter w))))
           ++ "s";
         ljust outer wo
           ++ format_fixed 3 (sub (next_reading (snd (perf_counter w2))) (next_reading w))
           ++ "s"].
Proof.
  intros H.
  destruct (normal_completion _ _ _ _ H) as [Ho _].
  pose proof (block_outcome_nested outer inner wo wi body w) as Hn.
  assert (Hin : fst (fst (with_timed inner wi body (snd (perf_counter w)))) = Return tt)
    by (rewrite Hn in Ho; exact Ho).
  destruct (normal_completion _ _ _ _ Hin) as [Hb _].
  destruct (block_outcome inner wi body (snd (perf_counter w))) as [[[]|e] w2] eqn:Hb';
    [|discriminate].
  cbn [snd]. split; [reflexivity|]. split; [exact Hin|].
  rewrite (with_timed_normal _ _ _ _ _ Hin Hb') in Hn. cbn [fst snd] in Hn.
  rewrite (with_timed_normal _ _ _ _ _ H Hn).
  do 2 eexists. split; [reflexivity|].
  cbn [print perf_counter snd stdout]. now rewrite <- List.app_assoc.
Qed.

Lemma nested_timers_print_inner_first_witness :
  fst (fst (with_timed "outer" 10 (nested "inner" 10 block_pass) sample_world))
    = Return tt /\
  exists gen w4,
    with_timed "outer" 10 (nested "inner" 10 block_pass) sample_world
      = (Return tt, gen, w4) /\
    stdout w4 = ["inner     0.000s"; "outer     0.250s"].
Proof.
  split; [reflexivity|].
  destruct (nested_timers_print_inner_first "outer" "inner" 10 10 block_pass
              sample_world eq_refl) as (_ & _ & gen & w4 & E & S).
  exists gen, w4. split; [exact E|]. rewrite S. reflexivity.
Defined.

(** X7: an error raised under nested timers leaves both [with]
    statements unchanged, and neither timer reads the clock again nor
    prints. *)
Theorem nested_timers_pass_errors
    (outer inner : string) (wo wi : Z) (body : block) (w : world)
    (e : exn) (w2 : world) :
  block_outcome inner wi body (snd (perf_counter w)) = (Raise e, w2) ->
  exists gen,
    with_timed outer wo (nested inner wi body) w = (Raise e, gen, w2).
Proof.
  intros Hb.
  pose proof (block_outcome_nested outer inner wo wi body w) as Hn.
  rewrite (with_timed_raise _ _ _ _ _ _ Hb) in Hn. cbn [fst snd] in Hn.
  rewrite (with_timed_raise _ _ _ _ _ _ Hn). eexists. reflexivity.
Qed.

Lemma nested_timers_pass_errors_witness :
  block_outcome "inner" 10 (block_raise boom) (snd (perf_counter sample_world))
    = (Raise boom, snd (perf_counter (snd (perf_counter sample_world)))) /\
  exists gen,
    with_timed "outer" 10 (nested "inner" 10 (block_raise boom)) sample_world
      = (Raise boom, gen, snd (perf_counter (snd (perf_counter sample_world)))).
Proof.
  split; [reflexivity|].
  exact (nested_timers_pass_errors "outer" "inner" 10 10 (block_raise boom)
           sample_world boom _ eq_refl).
Defined.

(** ** The exponent of a difference *)

Lemma shr_fexp_exponent (m e : Z) (l : location) :
  emin <= e -> emin <= snd (shr_fexp prec emax m e l).
Proof.
  intros H. unfold shr_fexp, shr.
  destruct (fexp prec emax (Zdigits2 m + e) - e) as [|p|p] eqn:E; cbn [snd]; trivial.
  rewrite <- E. unfold fexp, emin in *. lia.
Qed.

Lemma binary_round_aux_exponent (s s' : bool) (m e : Z) (l : location)
    (m' : positive) (e' : Z) :
  emin <= e ->
  binary_round_aux prec emax s m e l = S754_finite s' m' e' -> emin <= e'.
Proof.
  intros H. unfold binary_round_aux.
  pose proof (shr_fexp_exponent m e l H) as H1.
  destruct (shr_fexp prec emax m e l) as [mrs1 e1]. cbn [snd] in H1.
  pose proof (shr_fexp_exponent
                (round_nearest_even (shr_m mrs1) (loc_of_shr_record mrs1)) e1 loc_Exact H1) as H2.
  destruct (shr_fexp prec emax _ e1 loc_Exact) as [mrs2 e2]. cbn [snd] in H2.
  destruct (shr_m mrs2); try discriminate.
  destruct (e2 <=? emax - prec); [|discriminate].
  now intros [= _ _ <-].
Qed.

Lemma sub_exponent (a b : float) (s : bool) (m : positive) (e : Z) :
  is_number a = true -> is_number b = true ->
  sub a b = S754_finite s m e -> emin <= e.
Proof.
  unfold is_number. rewrite !andb_true_iff. intros [Va Fa] [Vb Fb].
  destruct a as [sa|sa| |sa ma ea], b as [sb|sb| |sb mb eb]; try discriminate;
    cbn [valid valid_binary] in Va, Vb; unfold sub; cbn [SFsub].
  - destruct sa, sb; discriminate.
  - destruct (bounded_spec _ _ Vb) as (_ & R & _). now intros [= _ _ <-].
  - destruct (bounded_spec _ _ Va) as (_ & R & _). now intros [= _ _ <-].
  - destruct (bounded_spec _ _ Va) as (_ & Ra & _).
    destruct (bounded_spec _ _ Vb) as (_ & Rb & _).
    set (z := _ - _). destruct z as [|mz|mz]; cbn [binary_normalize]; try discriminate.
    all: unfold binary_round;
      match goal with |- context [shl_align ?x ?y ?t] =>
        assert (He : emin <= snd (shl_align x y t));
        [ unfold shl_align; destruct (t - y) eqn:E; cbn [snd];
          try lia; unfold fexp, emin in *; lia
        | destruct (shl_align x y t) as [mz' ez']; cbn [snd] in He ] end;
      now apply binary_round_aux_exponent.
Qed.

(** The digits of any finite number whose exponent is in range. *)
Lemma scaled_digits_nearest_exponent (s : bool) (m : positive) (e : Z) :
  emin <= e ->
  nearest_thousandth (S754_finite s m e) (scaled_digits 3 m e) /\
  0 <= scaled_digits 3 m e.
Proof.
  intros R.
  assert (Hemin : emin = -1074) by reflexivity.
  unfold scaled_digits.
  set (num := Zpos m * 10 ^ Z.of_nat 3 * 2 ^ Z.max e 0).
  set (den := 2 ^ Z.max (- e) 0).
  assert (Hden : 0 < den) by (apply pow2_pos; lia).
  assert (Hnum : 0 <= num).
  { unfold num. pose proof (pow2_pos (Z.max e 0) ltac:(lia)).
    change (10 ^ Z.of_nat 3) with 1000. nia. }
  split; [|now apply div_half_even_nonneg].
  pose proof (div_half_even_nearest num den Hden) as N. cbv zeta in N.
  set (q := div_half_even num den) in *.
  set (c := 2 ^ (Z.min e 0 - emin)).
  assert (Hc : 0 < c) by (apply pow2_pos; lia).
  assert (E1 : 1000 * Z.abs (ulps (S754_finite s m e)) = num * c).
  { cbn [ulps]. replace (Z.abs (cond_Zopp s (Zpos m * 2 ^ (e - emin))))
      with (Zpos m * 2 ^ (e - emin))
      by (pose proof (ulps_finite_pos m e ltac:(lia)); destruct s; cbn [cond_Zopp]; lia).
    unfold num, c. change (10 ^ Z.of_nat 3) with 1000.
    replace (e - emin) with (Z.max e 0 + (Z.min e 0 - emin)) by lia.
    rewrite Z.pow_add_r by lia. ring. }
  assert (E2 : second = den * c).
  { unfold second, den, c.
    replace (- emin) with (Z.max (- e) 0 + (Z.min e 0 - emin)) at 1 by lia.
    apply Z.pow_add_r; lia. }
  unfold nearest_thousandth. cbv zeta. rewrite E1, E2.
  replace (num * c - q * (den * c)) with ((num - q * den) * c) by ring.
  rewrite Z.abs_mul, (Z.abs_eq c) by lia.
  destruct N as [N1 N2]. split; [nia|].
  intros H. apply N2. nia.
Qed.

(** X8: for every scoped use that completes normally on binary64
    readings, whatever their difference, the line shows the computed
    difference [stop - start] rounded to the nearest thousandth (ties to
    even), with a minus sign when its sign bit is set. *)
Theorem line_shows_nearest_thousandth
    (label : string) (column_width : Z) (body : block) (w : world) :
  fst (fst (with_timed label column_width body w)) = Return tt ->
  let t0 := next_reading w in
  let t1 := next_reading (snd (block_outcome label column_width body w)) in
  is_number t0 = true -> is_number t1 = true ->
  is_finite (sub t1 t0) = true ->
  exists q whole frac,
    nearest_thousandth (sub t1 t0) q /\
    timer_lines label column_width body w =
      [ljust label column_width
       ++ ((if signbit (sub t1 t0) then "-" else "") ++ whole ++ "." ++ frac) ++ "s"] /\
    all_digits whole = true /\ all_digits frac = true /\
    String.length frac = 3%nat /\
    decimal_value whole = q / 1000 /\ decimal_value frac = q mod 1000.
Proof.
  intros H t0 t1 H0 H1 F.
  destruct (normal_completion _ _ _ _ H) as [Hb Hw].
  destruct (block_outcome label column_width body w) as [[[]|e] w2] eqn:Hb'; [|discriminate].
  cbn [snd] in t1.
  rewrite (timer_lines_normal _ _ _ _ _ H Hb'). fold t0 t1.
  assert (Q : exists q, nearest_thousandth (sub t1 t0) q /\ 0 <= q /\
                format_fixed 3 (sub t1 t0) =
                (if signbit (sub t1 t0) then "-" else "") ++ fixed_digits 3 q).
  { destruct (sub t1 t0) as [s|s| |s m e] eqn:E; try discriminate.
    - assert (0 < second) by (vm_compute; reflexivity).
      exists 0. repeat split; try reflexivity; cbn [ulps]; lia.
    - destruct (scaled_digits_nearest_exponent s m e
                  (sub_exponent t1 t0 s m e H1 H0 E)) as [N P].
      exists (scaled_digits 3 m e). repeat split; trivial; apply N. }
  destruct Q as (q & Nq & Pq & ->).
  destruct (fixed_digits_value q Pq) as (whole & frac & -> & Aw & Af & L & Vw & Vf).
  exists q, whole, frac. repeat split; trivial; apply Nq.
Qed.

Lemma line_shows_nearest_thousandth_witness :
  fst (fst (with_timed "load" 40 block_pass sample_world)) = Return tt /\
  is_number one = true /\ is_number one_and_a_quarter = true /\
  is_finite (sub one_and_a_quarter one) = true /\
  exists q whole frac,
    nearest_thousandth (sub one_and_a_quarter one) q /\
    timer_lines "load" 40 block_pass sample_world =
      [ljust "load" 40
       ++ ((if signbit (sub one_and_a_quarter one) then "-" else "")
           ++ whole ++ "." ++ frac) ++ "s"] /\
    all_digits whole = true /\ all_digits frac = true /\
    String.length frac = 3%nat /\
    decimal_value whole = q / 1000 /\ decimal_value frac = q mod 1000.
Proof.
  do 4 (split; [reflexivity|]).
  exact (line_shows_nearest_thousandth "load" 40 block_pass sample_world
           eq_refl eq_refl eq_refl eq_refl).
Defined.

(** X9: the scoped use completes normally only if the block did and the
    width is between 0 and [PY_SSIZE_T_MAX]: the timer suppresses no error
    of the block, and no width outside that range gets a line. *)
Theorem completes_normally_only_if
    (label : string) (column_width : Z) (body : block) (w : world) :
  fst (fst (with_timed label column_width body w)) = Return tt ->
  fst (block_outcome label column_width body w) = Return tt /\
  0 <= column_width <= FormatSpec.PY_SSIZE_T_MAX.
Proof.
  intros H. destruct (normal_completion _ _ _ _ H) as [Hb Hw].
  split; [exact Hb|]. unfold valid_width in Hw. lia.
Qed.

Lemma completes_normally_only_if_witness :
  fst (fst (with_timed "load" 40 block_pass sample_world)) = Return tt /\
  fst (block_outcome "load" 40 block_pass sample_world) = Return tt /\
  0 <= 40 <= FormatSpec.PY_SSIZE_T_MAX.
Proof.
  split; [reflexivity|].
  exact (completes_normally_only_if "load" 40 block_pass sample_world eq_refl).
Defined.
